(** * vscan-email-address-extractor: the extraction pipeline of [main.py]

    A shallow embedding of the program: the regular expression handed to
    [re.findall], the three extraction functions, the directory walk, the
    sink and [main], followed by the properties of the specification. *)

From Stdlib Require Import NArith Ascii String.
From stdpp Require Import base option list gmap sets.

Set Warnings "-register-all,-clear-no-such-hyp".
Local Open Scope N_scope.

(** ** Text

    A Python [str] is a sequence of Unicode code points. *)

Abbreviation text := (list N).

(** The code points of a literal. *)
Definition codes (s : string) : text :=
  map N_of_ascii (list_ascii_of_string s).

(** ** The pattern of lines 41 and 64

    [[a-zA-Z0-9._%+-]+@[a-zA-Z0-9.-]+\.[a-zA-Z]{2,}] *)

Module Re.

Definition in_range (lo hi c : N) : bool := (lo <=? c) && (c <=? hi).

(** [a-zA-Z] *)
Definition is_letter (c : N) : bool := in_range 97 122 c || in_range 65 90 c.

(** [0-9] *)
Definition is_digit (c : N) : bool := in_range 48 57 c.

Definition AT : N := 64.
Definition DOT : N := 46.
Definition NEWLINE : N := 10.

(** [[a-zA-Z0-9._%+-]] *)
Definition local_char (c : N) : bool :=
  is_letter c || is_digit c
  || (c =? 46) || (c =? 95) || (c =? 37) || (c =? 43) || (c =? 45).

(** [[a-zA-Z0-9.-]] *)
Definition domain_char (c : N) : bool :=
  is_letter c || is_digit c || (c =? 46) || (c =? 45).

(** A literal character. *)
Definition lit (x c : N) : bool := c =? x.

(** The pattern language used by the program: a sequence of character
    sets, each taken once or repeated greedily at least [n] times
    ([+] is [{1,}]). *)
Inductive quant := Once | AtLeast (n : nat).

Record item := Item { item_set : N -> bool; item_quant : quant }.

Definition pattern : Type := list item.

Definition EMAIL : pattern :=
  [ Item local_char (AtLeast 1);
    Item (lit AT) Once;
    Item domain_char (AtLeast 1);
    Item (lit DOT) Once;
    Item is_letter (AtLeast 2) ].

(** The backtracking matcher of [re]: a greedy repetition takes a
    character whenever it can and gives it back only when the rest of the
    pattern fails; [k] matches the rest of the pattern, [need] is the
    number of repetitions still required. *)
Fixpoint greedy (set : N -> bool) (k : text -> option text)
    (need : nat) (s : text) : option text :=
  let stop := match need with O => k s | S _ => None end in
  match s with
  | c :: s' =>
      if set c then
        match greedy set k (Nat.pred need) s' with
        | Some m => Some (c :: m)
        | None => stop
        end
      else stop
  | [] => stop
  end.

(** [match_here p s]: the match of [p] anchored at the start of [s]. *)
Fixpoint match_here (p : pattern) (s : text) : option text :=
  match p with
  | [] => Some []
  | Item set Once :: p' =>
      match s with
      | c :: s' => if set c then cons c <$> match_here p' s' else None
      | [] => None
      end
  | Item set (AtLeast n) :: p' => greedy set (match_here p') n s
  end.

(** [re.findall]: the matches found scanning left to right; after a match
    the scan resumes at its end, otherwise one character further.
    [skip] counts the characters of the last match still to pass. *)
Fixpoint scan (p : pattern) (skip : nat) (s : text) : list text :=
  match s with
  | [] =>
      match skip, match_here p [] with
      | O, Some m => [m]
      | _, _ => []
      end
  | _ :: s' =>
      match skip with
      | S n => scan p n s'
      | O =>
          match match_here p s with
          | Some m => m :: scan p (Nat.pred (length m)) s'
          | None => scan p 0 s'
          end
      end
  end.

Definition findall (p : pattern) (s : text) : list text := scan p 0 s.

End Re.

(** [set(re.findall(r"...", text))] *)
Definition find_emails (t : text) : gset text :=
  list_to_set (Re.findall Re.EMAIL t).

(** ** The environment

    What the operating system and the network answer.  [open(p).read()]
    either gives the decoded text ([errors='ignore'] never fails on a byte
    sequence), raises [FileNotFoundError], or raises something else. *)

Inductive read_outcome :=
| ReadOk (t : text)
| ReadNotFound
| ReadFailed.

(** [requests.get] + [raise_for_status] + [BeautifulSoup(...).get_text()]:
    the visible text of the page, a [RequestException], or another
    exception. *)
Inductive fetch_outcome :=
| Fetched (visible : text)
| RequestError
| OtherError.

(** A file system entry, with what the walk meets there.  Everything that
    is not a directory is a file for [os.walk].  A directory may refuse to
    be listed: [scandir] raises an [OSError] ([PermissionError]), which
    [os.walk] ignores ([Dir false]).  At a [RaisingDir] the walk raises an
    exception that is no [OSError] and so leaves [os.walk]: the
    [RecursionError] of CPython up to 3.11, whose [os.walk] is recursive,
    at a directory nested deeper than the interpreter allows.  A [Symlink]
    is a symbolic link to an entry: [stat], [open] and [is_dir] follow it,
    the walk does not enter it. *)
Inductive node :=
| File (r : read_outcome)
| Dir (listable : bool) (entries : list (text * node))
| RaisingDir (entries : list (text * node))
| Symlink (target : node).

(** The entry a chain of symbolic links leads to. *)
Fixpoint resolve (n : node) : node :=
  match n with
  | Symlink t => resolve t
  | _ => n
  end.

(** A path with a NUL character: [os.stat], [scandir] and [open] raise
    [ValueError] on it. *)
Definition NUL : N := 0.

Definition has_nul (p : text) : bool := existsb (N.eqb NUL) p.

Record World := {
  http_get : text -> fetch_outcome;
  stat : text -> option node;
  writable : text -> bool
}.

(** What a path names, symbolic links followed. *)
Definition lookup (w : World) (p : text) : option node :=
  resolve <$> stat w p.

(** [os.path.isfile], [os.path.isdir] (both answer [False] when [os.stat]
    raises [ValueError]), and what [open(p, 'r')] does. *)
Definition isfile (w : World) (p : text) : bool :=
  negb (has_nul p)
  && match lookup w p with Some (File _) => true | _ => false end.

Definition isdir (w : World) (p : text) : bool :=
  negb (has_nul p)
  && match lookup w p with
     | Some (Dir _ _) | Some (RaisingDir _) => true
     | _ => false
     end.

Definition open_read (w : World) (p : text) : read_outcome :=
  if has_nul p then ReadFailed
  else match lookup w p with
       | Some (File r) => r
       | Some _ => ReadFailed
       | None => ReadNotFound
       end.

(** ** Effects *)

Inductive level := INFO | ERROR.

Inductive message :=
| MsgFetchError (url : text)       (* "Error fetching URL ..." *)
| MsgUrlError (url : text)         (* "Error processing URL ..." *)
| MsgFileNotFound (path : text)    (* "File not found: ..." *)
| MsgFileError (path : text)       (* "Error processing file ..." *)
| MsgDirError (path : text)        (* "Error processing directory ..." *)
| MsgSaved (path : text)           (* "Extracted emails saved to ..." *)
| MsgSaveError                     (* "Error saving emails to file: ..." *)
| MsgInvalidSource                 (* "Invalid source provided. ..." *)
| MsgNoEmails                      (* "No emails extracted or an error occurred." *)
| MsgComplete.                     (* "Email extraction complete." *)

Inductive event :=
| HttpGet (url : text)
| OpenRead (path : text)
| OpenWrite (path : text)
| Write (path : text) (data : text)
| Print (line : text)
| Log (l : level) (m : message).

(** Computations that leave a trace of events. *)
Definition M (A : Type) : Type := list event * A.

Definition ret {A} (a : A) : M A := ([], a).

Definition bind {A B} (m : M A) (k : A -> M B) : M B :=
  let '(t1, a) := m in
  let '(t2, b) := k a in
  (t1 ++ t2, b).

Definition emit (e : event) : M unit := ([e], tt).

Definition trace {A} (m : M A) : list event := fst m.
Definition result {A} (m : M A) : A := snd m.

Notation "x <- m ;; k" := (bind m (fun x => k))
  (at level 100, m at next level, right associativity).
Notation "m ;; k" := (bind m (fun _ => k))
  (at level 100, right associativity).

(** [for x in l: st = body x st] *)
Fixpoint for_each {A S} (l : list A) (st : S) (body : A -> S -> M S) : M S :=
  match l with
  | [] => ret st
  | x :: l' => st' <- body x st ;; for_each l' st' body
  end.

(** ** The extraction functions *)

(** Lines 26-48. *)
Definition extract_emails_from_url (url : text) (r : fetch_outcome)
    : M (option (gset text)) :=
  emit (HttpGet url) ;;
  match r with
  | Fetched t => ret (Some (find_emails t))
  | RequestError => emit (Log ERROR (MsgFetchError url)) ;; ret None
  | OtherError => emit (Log ERROR (MsgUrlError url)) ;; ret None
  end.

(** Lines 51-71. *)
Definition extract_emails_from_file (file_path : text) (r : read_outcome)
    : M (option (gset text)) :=
  emit (OpenRead file_path) ;;
  match r with
  | ReadOk t => ret (Some (find_emails t))
  | ReadNotFound => emit (Log ERROR (MsgFileNotFound file_path)) ;; ret None
  | ReadFailed => emit (Log ERROR (MsgFileError file_path)) ;; ret None
  end.

Definition SEP : N := 47.

Definition ends_with_sep (a : text) : bool :=
  match last a with Some c => c =? SEP | None => false end.

(** [os.path.join] with two arguments (posixpath). *)
Definition os_path_join (a b : text) : text :=
  match b with
  | c :: _ => if c =? SEP then b
              else if ends_with_sep a || bool_decide (a = []) then a ++ b
              else a ++ SEP :: b
  | [] => if ends_with_sep a || bool_decide (a = []) then a else a ++ [SEP]
  end.

(** The triples [(root, dirs, files)] of [os.walk]; each file name comes
    with what opening that entry does. *)
Abbreviation walk_triple :=
  (text * list text * list (text * read_outcome))%type.

(** [entry.is_dir()] follows symbolic links: a link to a directory is
    listed among [dirs], a link to a file (or a broken one, a file that
    cannot be opened) among the files. *)
Definition dir_names (es : list (text * node)) : list text :=
  flat_map (fun e => match resolve (snd e) with
                     | Dir _ _ | RaisingDir _ => [fst e]
                     | _ => []
                     end) es.

Definition file_entries (es : list (text * node)) : list (text * read_outcome) :=
  flat_map (fun e => match resolve (snd e) with
                     | File r => [(fst e, r)]
                     | _ => []
                     end) es.

(** What the generator of [os.walk] does when it is asked for the next
    item: it yields a triple, or an exception leaves it. *)
Inductive walk_step :=
| Yield (tr : walk_triple)
| Raise.

(** [os.walk(top)], top-down, [onerror=None], [followlinks=False]: a
    directory that cannot be listed (or a path that is no directory) is
    passed over in silence; the directories among the entries are entered
    in turn, symbolic links apart.  The steps after a [Raise] are never
    asked for. *)
Fixpoint walk_tree (top : text) (n : node) : list walk_step :=
  match n with
  | File _ => []
  | Symlink _ => []
  | Dir false _ => []
  | RaisingDir _ => [Raise]
  | Dir true es =>
      Yield (top, dir_names es, file_entries es) ::
      (fix subdirs (l : list (text * node)) : list walk_step :=
         match l with
         | [] => []
         | (name, (Dir _ _ | RaisingDir _) as sub) :: l' =>
             walk_tree (os_path_join top name) sub ++ subdirs l'
         | (name, (File _ | Symlink _)) :: l' => subdirs l'
         end) es
  end.

(** [scandir(top)] follows a symbolic link at the top, and raises
    [ValueError] on a path with a NUL character. *)
Definition os_walk (top : text) (tree : option node) : list walk_step :=
  if has_nul top then [Raise]
  else match tree with
       | Some n => walk_tree top (resolve n)
       | None => []
       end.

(** Lines 88-92: the inner loop over the files of one triple. *)
Definition read_files (root : text) (files : list (text * read_outcome))
    (all_emails : gset text) : M (gset text) :=
  for_each files all_emails (fun f all_emails =>
    let file_path := os_path_join root (fst f) in
    emails <- extract_emails_from_file file_path (snd f) ;;
    ret (match emails with
         | Some emails => all_emails ∪ emails
         | None => all_emails
         end)).

(** Lines 86-98: the loop over the walk inside [try].  When the walk is
    exhausted, or after [break], line 95 returns the set; when an exception
    leaves the walk, lines 96-98 log it and return [None]. *)
Fixpoint walk_loop (directory_path : text) (recursive : bool)
    (steps : list walk_step) (all_emails : gset text)
    : M (option (gset text)) :=
  match steps with
  | [] => ret (Some all_emails)
  | Raise :: _ =>
      emit (Log ERROR (MsgDirError directory_path)) ;; ret None
  | Yield (root, _, files) :: steps' =>
      all_emails <- read_files root files all_emails ;;
      if recursive then walk_loop directory_path recursive steps' all_emails
      else ret (Some all_emails)
  end.

(** Lines 74-98. *)
Definition extract_emails_from_directory (directory_path : text)
    (tree : option node) (recursive : bool) : M (option (gset text)) :=
  walk_loop directory_path recursive (os_walk directory_path tree) ∅.

(** ** The sink *)

(** Lines 101-115; [elements] stands for the iteration order of the set. *)
Definition save_emails_to_file (w : World) (emails : gset text)
    (output_file : text) : M unit :=
  if writable w output_file then
    emit (OpenWrite output_file) ;;
    for_each (elements emails) tt (fun email _ =>
      emit (Write output_file (email ++ [Re.NEWLINE]))) ;;
    emit (Log INFO (MsgSaved output_file))
  else
    emit (Log ERROR MsgSaveError).

(** ** main *)

Record Args := {
  source : text;
  recursive : bool;
  output : option text
}.

Fixpoint startswith (p s : text) : bool :=
  match p, s with
  | [], _ => true
  | x :: p', y :: s' => (x =? y) && startswith p' s'
  | _ :: _, [] => false
  end.

(** Lines 139-149. *)
Definition finish (w : World) (a : Args) (emails : option (gset text)) : M unit :=
  match emails with
  | None => emit (Log ERROR MsgNoEmails)
  | Some emails =>
      match output a with
      | Some ((_ :: _) as output_file) => save_emails_to_file w emails output_file
      | _ => for_each (elements emails) tt (fun email _ => emit (Print email))
      end ;;
      emit (Log INFO MsgComplete)
  end.

(** Lines 118-149. *)
Definition main (w : World) (a : Args) : M unit :=
  if startswith (codes "http://") (source a)
     || startswith (codes "https://") (source a) then
    emails <- extract_emails_from_url (source a) (http_get w (source a)) ;;
    finish w a emails
  else if isfile w (source a) then
    emails <- extract_emails_from_file (source a) (open_read w (source a)) ;;
    finish w a emails
  else if isdir w (source a) then
    emails <- extract_emails_from_directory (source a) (stat w (source a))
                (recursive a) ;;
    finish w a emails
  else
    emit (Log ERROR MsgInvalidSource).

(** * Notions used to state the properties *)

(** [w] is a contiguous substring of [t]. *)
Definition occurs_in (w t : text) : Prop :=
  exists pre post, t = pre ++ w ++ post.

(** The strings [ms] lie in [s] one after the other, without overlap. *)
Fixpoint in_order (ms : list text) (s : text) : Prop :=
  match ms with
  | [] => True
  | m :: ms' => exists pre rest, s = pre ++ m ++ rest /\ in_order ms' rest
  end.

(** The strings a pattern describes. *)
Fixpoint denotes (p : Re.pattern) (w : text) : Prop :=
  match p with
  | [] => w = []
  | Re.Item set Re.Once :: p' =>
      exists c w', w = c :: w' /\ set c = true /\ denotes p' w'
  | Re.Item set (Re.AtLeast n) :: p' =>
      exists r w', w = r ++ w' /\ (n <= length r)%nat
                   /\ Forall (fun c => set c = true) r /\ denotes p' w'
  end.

(** The matching rule in the words of section 4.1: one or more characters
    of the local set, ['@'], one or more characters of the domain set, a
    literal ['.'], two or more letters. *)
Definition email_shaped (w : text) : Prop :=
  exists l d tl,
    w = l ++ Re.AT :: d ++ Re.DOT :: tl
    /\ (1 <= length l)%nat /\ Forall (fun c => Re.local_char c = true) l
    /\ (1 <= length d)%nat /\ Forall (fun c => Re.domain_char c = true) d
    /\ (2 <= length tl)%nat /\ Forall (fun c => Re.is_letter c = true) tl.

(** [m] is the longest string matching the rule that starts the text [s]. *)
Definition longest_address (s m : text) : Prop :=
  email_shaped m /\ m `prefix_of` s
  /\ forall m', email_shaped m' -> m' `prefix_of` s -> (length m' <= length m)%nat.

(** The leftmost, longest, non-overlapping matches of the rule in a text,
    read from left to right: where no string matching the rule starts, the
    reading moves on by one character; where one starts, the longest such
    string is a match and the reading resumes after its last character. *)
Inductive leftmost_matches : text -> list text -> Prop :=
| lm_end : leftmost_matches [] []
| lm_skip c s ms :
    (forall m, m `prefix_of` (c :: s) -> ~ email_shaped m) ->
    leftmost_matches s ms ->
    leftmost_matches (c :: s) ms
| lm_take m rest ms :
    longest_address (m ++ rest) m ->
    leftmost_matches rest ms ->
    leftmost_matches (m ++ rest) (m :: ms).

(** White space of Python's [str.isspace], line breaks included. *)
Definition is_whitespace (c : N) : bool :=
  Re.in_range 9 13 c || Re.in_range 28 32 c || (c =? 133) || (c =? 160)
  || (c =? 5760) || Re.in_range 8192 8202 c || (c =? 8232) || (c =? 8233)
  || (c =? 8239) || (c =? 8287) || (c =? 12288).

(** Section 4.5: the classification of the source string, first match
    wins. *)
Inductive source_kind := KUrl | KFile | KDirectory | KInvalid.

Definition classify (w : World) (s : text) : source_kind :=
  if startswith (codes "http://") s then KUrl
  else if startswith (codes "https://") s then KUrl
  else if isfile w s then KFile
  else if isdir w s then KDirectory
  else KInvalid.

(** The extraction a run performs for its source, if any. *)
Definition top_level_extraction (w : World) (a : Args)
    : option (M (option (gset text))) :=
  match classify w (source a) with
  | KUrl => Some (extract_emails_from_url (source a) (http_get w (source a)))
  | KFile => Some (extract_emails_from_file (source a) (open_read w (source a)))
  | KDirectory =>
      Some (extract_emails_from_directory (source a) (stat w (source a))
              (recursive a))
  | KInvalid => None
  end.

(** A top-level failure: the source is invalid, or its extraction gives the
    Failure Marker. *)
Definition top_level_failure (w : World) (a : Args) : Prop :=
  match top_level_extraction w a with
  | Some m => result m = None
  | None => True
  end.

(** What a trace shows of the network and of the files read. *)
Definition http_gets (t : list event) : list text :=
  flat_map (fun e => match e with HttpGet u => [u] | _ => [] end) t.

Definition opened (t : list event) : list text :=
  flat_map (fun e => match e with OpenRead p => [p] | _ => [] end) t.

(** Output: what the sink does, and the lines printed. *)
Definition is_output (e : event) : bool :=
  match e with
  | OpenWrite _ | Write _ _ | Print _ => true
  | Log _ (MsgSaved _) | Log _ MsgSaveError => true
  | _ => false
  end.

(** The content of [path] after the writes of a trace. *)
Definition written_content (t : list event) (path : text) : text :=
  flat_map (fun e => match e with
                     | Write p d => if decide (p = path) then d else []
                     | _ => []
                     end) t.

(** Reading a text back line by line, line ends removed. *)
Fixpoint read_lines (s : text) : list text :=
  match s with
  | [] => []
  | c :: s' =>
      if c =? Re.NEWLINE then [] :: read_lines s'
      else match read_lines s' with
           | [] => [[c]]
           | l :: ls => (c :: l) :: ls
           end
  end.

(** The files a directory extraction hands to the File Reader, in order,
    each with its path. *)
Definition triple_files (tr : walk_triple) : list (text * read_outcome) :=
  let '(root, _, files) := tr in
  map (fun f => (os_path_join root (fst f), snd f)) files.

(** The triples the loop of lines 87-94 works on: those yielded before an
    exception leaves the walk, the first one alone when not recursive. *)
Fixpoint taken (recursive : bool) (steps : list walk_step) : list walk_triple :=
  match steps with
  | Yield tr :: steps' => tr :: (if recursive then taken recursive steps' else [])
  | _ => []
  end.

(** An exception leaves the walk while the loop runs. *)
Fixpoint walk_fails (recursive : bool) (steps : list walk_step) : bool :=
  match steps with
  | [] => false
  | Raise :: _ => true
  | Yield _ :: steps' => recursive && walk_fails recursive steps'
  end.

(** All the triples of a list of steps. *)
Definition yields (steps : list walk_step) : list walk_triple :=
  flat_map (fun s => match s with Yield tr => [tr] | Raise => [] end) steps.

Definition visited (directory_path : text) (tree : option node)
    (recursive : bool) : list (text * read_outcome) :=
  flat_map triple_files (taken recursive (os_walk directory_path tree)).

Definition walk_raises (directory_path : text) (tree : option node)
    (recursive : bool) : bool :=
  walk_fails recursive (os_walk directory_path tree).

(** The texts of the readable files among [fs], and the merge of their
    extraction results. *)
Definition readable_texts (fs : list (text * read_outcome)) : list text :=
  omap (fun f => match snd f with ReadOk t => Some t | _ => None end) fs.

Definition merge (fs : list (text * read_outcome)) : gset text :=
  ⋃ (find_emails <$> readable_texts fs).

(** The files directly in a directory. *)
Definition files_directly_in (top : text) (n : node)
    : list (text * read_outcome) :=
  match n with
  | Dir _ es | RaisingDir es =>
      map (fun f => (os_path_join top (fst f), snd f)) (file_entries es)
  | _ => []
  end.

(** The files at a path and below it, at every nesting depth, through
    every directory and every symbolic link. *)
Fixpoint files_at (p : text) (n : node) : list (text * read_outcome) :=
  match n with
  | File r => [(p, r)]
  | Symlink t => files_at p t
  | Dir _ es | RaisingDir es =>
      (fix go (l : list (text * node)) : list (text * read_outcome) :=
         match l with
         | [] => []
         | (name, sub) :: l' => files_at (os_path_join p name) sub ++ go l'
         end) es
  end.

(** Every file below a directory, at every nesting depth. *)
Definition files_under (top : text) (n : node) : list (text * read_outcome) :=
  match n with
  | File _ => []
  | _ => files_at top n
  end.

(** The files at a path and below it that are reached through directories
    that can be listed and are no symbolic links. *)
Fixpoint reach_at (p : text) (n : node) : list (text * read_outcome) :=
  match n with
  | File r => [(p, r)]
  | Symlink t => match resolve t with File r => [(p, r)] | _ => [] end
  | Dir false _ => []
  | RaisingDir _ => []
  | Dir true es =>
      (fix go (l : list (text * node)) : list (text * read_outcome) :=
         match l with
         | [] => []
         | (name, sub) :: l' => reach_at (os_path_join p name) sub ++ go l'
         end) es
  end.

Definition files_reachable (top : text) (n : node) : list (text * read_outcome) :=
  match n with
  | Dir true _ => reach_at top n
  | _ => []
  end.

(** A tree without obstacle: every directory can be listed, none makes the
    walk raise, and no symbolic link leads to a directory. *)
Fixpoint plain (n : node) : bool :=
  match n with
  | File _ => true
  | Symlink t => match resolve t with File _ => true | _ => false end
  | RaisingDir _ => false
  | Dir b es =>
      b && (fix go (l : list (text * node)) : bool :=
              match l with
              | [] => true
              | (_, sub) :: l' => plain sub && go l'
              end) es
  end.

(** The events of reading one file. *)
Definition file_events (f : text * read_outcome) : list event :=
  trace (extract_emails_from_file (fst f) (snd f)).

(** How often iterating over the set yields [A]. *)
Definition occurrences (A : text) (S : gset text) : nat :=
  length (filter (fun x => x = A) (elements S)).

(** A character outside every set of the pattern: no local-part character
    (the domain set and the letters lie within the local set) and not
    ['@']. *)
Definition is_delimiter (c : N) : bool :=
  negb (Re.local_char c) && negb (c =? Re.AT).

(** The messages a trace logs at level ERROR, and the one a file leaves
    when its reading fails. *)
Definition errors (t : list event) : list message :=
  flat_map (fun e => match e with Log ERROR m => [m] | _ => [] end) t.

Definition file_error (f : text * read_outcome) : list message :=
  match snd f with
  | ReadOk _ => []
  | ReadNotFound => [MsgFileNotFound (fst f)]
  | ReadFailed => [MsgFileError (fst f)]
  end.

(** The lines a trace prints, and the files it opens for writing. *)
Definition printed (t : list event) : list text :=
  flat_map (fun e => match e with Print l => [l] | _ => [] end) t.

Definition write_opens (t : list event) : list text :=
  flat_map (fun e => match e with OpenWrite p => [p] | _ => [] end) t.

(** The text before an address ends at a delimiter (or is empty); the text
    after it starts with a character outside the domain set (or is
    empty). *)
Definition ends_at_delimiter (pre : text) : bool :=
  match last pre with Some x => is_delimiter x | None => true end.

Definition starts_off_domain (post : text) : bool :=
  match post with y :: _ => negb (Re.domain_char y) | [] => true end.

(** The same tree with every file unreadable. *)
Fixpoint unreadable (n : node) : node :=
  match n with
  | File _ => File ReadFailed
  | Symlink t => Symlink (unreadable t)
  | Dir b es =>
      Dir b ((fix go (l : list (text * node)) : list (text * node) :=
                match l with
                | [] => []
                | (name, sub) :: l' => (name, unreadable sub) :: go l'
                end) es)
  | RaisingDir es =>
      RaisingDir ((fix go (l : list (text * node)) : list (text * node) :=
                     match l with
                     | [] => []
                     | (name, sub) :: l' => (name, unreadable sub) :: go l'
                     end) es)
  end.

Definition is_raise (s : walk_step) : bool :=
  match s with Raise => true | Yield _ => false end.

(** * Properties *)

(** ** The model at work *)

Example findall_keeps_order_and_duplicates :
  Re.findall Re.EMAIL (codes "x@y.com, a@b.org; x@y.com")
  = [codes "x@y.com"; codes "a@b.org"; codes "x@y.com"].
Proof. vm_compute. reflexivity. Qed.

Example findall_gives_back_characters :
  Re.findall Re.EMAIL (codes "user@host.x1.yy9 a@b.c") = [codes "user@host.x1.yy"].
Proof. vm_compute. reflexivity. Qed.

Example findall_needs_a_local_part :
  Re.findall Re.EMAIL (codes "@b.com a@.com a@b. a@@b.com") = [].
Proof. vm_compute. reflexivity. Qed.

Example os_path_join_examples :
  os_path_join (codes "d") (codes "f.txt") = codes "d/f.txt"
  /\ os_path_join (codes "d/") (codes "f.txt") = codes "d/f.txt"
  /\ os_path_join (codes "d") (codes "/f.txt") = codes "/f.txt".
Proof. vm_compute. auto. Qed.

Example main_on_a_missing_source :
  trace (main {| http_get := fun _ => OtherError;
                 stat := fun _ => None;
                 writable := fun _ => true |}
              {| source := codes "./does_not_exist";
                 recursive := false;
                 output := None |})
  = [Log ERROR MsgInvalidSource].
Proof. reflexivity. Qed.

(** ** The matcher *)

Section Greedy.

Variable set : N -> bool.
Variable k : text -> option text.
Variable D : text -> Prop.

Lemma greedy_sound :
  (forall s m, k s = Some m -> D m /\ m `prefix_of` s) ->
  forall s need m, Re.greedy set k need s = Some m ->
    exists r w', m = r ++ w' /\ (need <= length r)%nat
                 /\ Forall (fun c => set c = true) r /\ D w'
                 /\ m `prefix_of` s.
Proof.
  intros Hk.
  assert (Hstop : forall s need m,
    match need with O => k s | S _ => None end = Some m ->
    exists r w', m = r ++ w' /\ (need <= length r)%nat
                 /\ Forall (fun c => set c = true) r /\ D w'
                 /\ m `prefix_of` s).
  { intros s [|n] m H; [|discriminate].
    destruct (Hk _ _ H) as [HD Hp]. exists [], m. auto. }
  induction s as [|c s IH]; intros need m H; simpl in H.
  - apply Hstop; assumption.
  - destruct (set c) eqn:Hc; [|apply Hstop; assumption].
    destruct (Re.greedy set k (Nat.pred need) s) as [m'|] eqn:Hg;
      [|apply Hstop; assumption].
    injection H as <-.
    destruct (IH _ _ Hg) as (r & w' & -> & Hn & Hr & HD & Hp).
    exists (c :: r), w'. repeat split; auto.
    + simpl. lia.
    + by apply prefix_cons.
Qed.

Lemma greedy_complete :
  (forall s, (exists w, D w /\ w `prefix_of` s) -> is_Some (k s)) ->
  forall s need,
    (exists r w', (r ++ w') `prefix_of` s /\ (need <= length r)%nat
                  /\ Forall (fun c => set c = true) r /\ D w') ->
    is_Some (Re.greedy set k need s).
Proof.
  intros Hk. induction s as [|c s IH]; intros need (r & w' & Hp & Hn & Hr & HD).
  - apply prefix_nil_inv in Hp. apply app_eq_nil in Hp as [-> ->].
    simpl in Hn. assert (need = O) as -> by lia. simpl.
    apply Hk. exists []. split; [done | apply prefix_nil].
  - destruct r as [|x r].
    + simpl in Hn. assert (need = O) as -> by lia. simpl in *.
      assert (is_Some (k (c :: s))) by (apply Hk; eauto).
      destruct (set c); [|done].
      destruct (Re.greedy set k 0 s); [eauto | done].
    + simpl in Hp. destruct Hp as [q Hq]. injection Hq as -> ->.
      apply Forall_cons in Hr as [Hx Hr]. simpl. rewrite Hx.
      destruct (IH (Nat.pred need)) as [m Hm].
      { exists r, w'. repeat split; auto.
        - by exists q.
        - simpl in Hn. lia. }
      rewrite Hm. eauto.
Qed.

Lemma greedy_fails :
  forall s need, Re.greedy set k need s = None ->
    forall r s2, s = r ++ s2 -> Forall (fun c => set c = true) r ->
      (need <= length r)%nat -> k s2 = None.
Proof.
  induction s as [|c s IH]; intros need H r s2 E Hr Hn.
  - symmetry in E. apply app_eq_nil in E as [-> ->]. simpl in *.
    by assert (need = O) as -> by lia.
  - simpl in H. destruct r as [|x r].
    + simpl in *. subst s2. assert (need = O) as -> by lia.
      destruct (set c); [|done].
      by destruct (Re.greedy set k (Nat.pred 0) s).
    + injection E as <- E. apply Forall_cons in Hr as [Hx Hr]. rewrite Hx in H.
      destruct (Re.greedy set k (Nat.pred need) s) eqn:Hg; [done|].
      apply (IH _ Hg r s2); [done|done|simpl in Hn; lia].
Qed.

(** A greedy repetition keeps the longest run after which the rest of the
    pattern matches. *)
Lemma greedy_longest :
  forall s need m, Re.greedy set k need s = Some m ->
    exists r s' w, s = r ++ s' /\ m = r ++ w /\ k s' = Some w
      /\ Forall (fun c => set c = true) r /\ (need <= length r)%nat
      /\ forall r2 s2, s = r2 ++ s2 -> Forall (fun c => set c = true) r2 ->
           (length r < length r2)%nat -> k s2 = None.
Proof.
  assert (Hstop : forall s need m,
    match need with O => k s | S _ => None end = Some m ->
    (forall r2 s2, s = r2 ++ s2 -> Forall (fun c => set c = true) r2 ->
       (0 < length r2)%nat -> k s2 = None) ->
    exists r s' w, s = r ++ s' /\ m = r ++ w /\ k s' = Some w
      /\ Forall (fun c => set c = true) r /\ (need <= length r)%nat
      /\ forall r2 s2, s = r2 ++ s2 -> Forall (fun c => set c = true) r2 ->
           (length r < length r2)%nat -> k s2 = None).
  { intros s [|n] m H Hmax; [|discriminate]. exists [], s, m.
    repeat split; auto. }
  induction s as [|c s IH]; intros need m H; simpl in H.
  - apply Hstop; [done|]. intros r2 s2 E _ Hl.
    symmetry in E. apply app_eq_nil in E as [-> _]. simpl in Hl. lia.
  - destruct (set c) eqn:Hc.
    + destruct (Re.greedy set k (Nat.pred need) s) as [m'|] eqn:Hg.
      * injection H as <-.
        destruct (IH _ _ Hg) as (r & s' & w & -> & -> & Hk & Hr & Hn & Hmax).
        exists (c :: r), s', w. repeat split; auto.
        -- simpl. lia.
        -- intros r2 s2 E Hr2 Hl. destruct r2 as [|x r2]; [simpl in Hl; lia|].
           injection E as <- E. apply Forall_cons in Hr2 as [_ Hr2].
           apply (Hmax r2 s2 E Hr2). simpl in Hl. lia.
      * apply Hstop; [done|]. intros r2 s2 E Hr2 Hl.
        destruct r2 as [|x r2]; [simpl in Hl; lia|].
        injection E as <- E. apply Forall_cons in Hr2 as [_ Hr2].
        destruct need; [|discriminate].
        apply (greedy_fails _ _ Hg r2 s2 E Hr2). simpl. lia.
    + apply Hstop; [done|]. intros r2 s2 E Hr2 Hl.
      destruct r2 as [|x r2]; [simpl in Hl; lia|].
      injection E as <- E. apply Forall_cons in Hr2 as [Hx _]. congruence.
Qed.

End Greedy.

Lemma match_here_sound p :
  forall s m, Re.match_here p s = Some m -> denotes p m /\ m `prefix_of` s.
Proof.
  induction p as [|[set [|n]] p IH]; intros s m H; simpl in H.
  - injection H as <-. split; [done | apply prefix_nil].
  - destruct s as [|c s]; [discriminate|].
    destruct (set c) eqn:Hc; [|discriminate].
    destruct (Re.match_here p s) as [m'|] eqn:Hm; [|discriminate].
    injection H as <-. destruct (IH _ _ Hm) as [HD Hp].
    split; [simpl; eauto | by apply prefix_cons].
  - destruct (greedy_sound set _ (denotes p) IH _ _ _ H)
      as (r & w' & -> & Hn & Hr & HD & Hp).
    split; [simpl; eauto 6 | done].
Qed.

Lemma match_here_complete p :
  forall s, (exists w, denotes p w /\ w `prefix_of` s) ->
            is_Some (Re.match_here p s).
Proof.
  induction p as [|[set [|n]] p IH]; intros s (w & HD & Hp); simpl in *.
  - eauto.
  - destruct HD as (c & w' & -> & Hc & HD).
    destruct Hp as [q ->]. simpl. rewrite Hc.
    destruct (IH (w' ++ q)) as [m Hm]; [exists w'; split; [done | by exists q]|].
    rewrite Hm. simpl. eauto.
  - destruct HD as (r & w' & -> & Hn & Hr & HD).
    apply (greedy_complete set _ (denotes p) IH). eauto 6.
Qed.

Lemma occurs_in_cons w c s : occurs_in w s -> occurs_in w (c :: s).
Proof. intros (pre & post & ->). by exists (c :: pre), post. Qed.

Lemma prefix_occurs_in (w s : text) : w `prefix_of` s -> occurs_in w s.
Proof. intros [q ->]. by exists [], q. Qed.

Lemma scan_sound p :
  forall s skip m, m ∈ Re.scan p skip s -> denotes p m /\ occurs_in m s.
Proof.
  induction s as [|c s IH]; intros skip m H; simpl in H.
  - destruct skip; [|by apply elem_of_nil in H].
    destruct (Re.match_here p []) as [m'|] eqn:Hm; [|by apply elem_of_nil in H].
    apply list_elem_of_singleton in H as ->.
    destruct (match_here_sound _ _ _ Hm). auto using prefix_occurs_in.
  - destruct skip as [|n].
    + destruct (Re.match_here p (c :: s)) as [m'|] eqn:Hm.
      * apply elem_of_cons in H as [->|H].
        -- destruct (match_here_sound _ _ _ Hm). auto using prefix_occurs_in.
        -- destruct (IH _ _ H). auto using occurs_in_cons.
      * destruct (IH _ _ H). auto using occurs_in_cons.
    + destruct (IH _ _ H). auto using occurs_in_cons.
Qed.

Lemma scan_complete p :
  forall s, (exists w, denotes p w /\ occurs_in w s) -> Re.scan p 0 s <> [].
Proof.
  induction s as [|c s IH]; intros (w & HD & pre & post & E); simpl.
  - symmetry in E. apply app_eq_nil in E as [-> E].
    apply app_eq_nil in E as [-> ->].
    destruct (match_here_complete p []) as [m ->]; [|done].
    exists []. split; [done | apply prefix_nil].
  - destruct (Re.match_here p (c :: s)) as [m|] eqn:Hm; [done|].
    destruct pre as [|x pre].
    + destruct (match_here_complete p (c :: s)) as [m Hm'].
      { exists w. split; [done | by exists post; rewrite E]. }
      congruence.
    + injection E as -> ->. apply IH. exists w. split; [done|]. by exists pre, post.
Qed.

Lemma in_order_cons ms c s : in_order ms s -> in_order ms (c :: s).
Proof.
  destruct ms as [|m ms]; [done|].
  intros (pre & rest & -> & H). by exists (c :: pre), rest.
Qed.

Lemma scan_in_order p :
  forall s skip, in_order (Re.scan p skip s) (drop skip s).
Proof.
  induction s as [|c s IH]; intros skip.
  - destruct skip; [|done]. simpl.
    destruct (Re.match_here p []) as [m|] eqn:Hm; [|done].
    destruct (match_here_sound _ _ _ Hm) as [_ Hp].
    apply prefix_nil_inv in Hp as ->. by exists [], [].
  - destruct skip as [|n]; [|apply IH]. cbn [Re.scan drop].
    destruct (Re.match_here p (c :: s)) as [m|] eqn:Hm.
    + destruct (match_here_sound _ _ _ Hm) as [_ [q Hq]].
      exists [], q. split; [done|].
      destruct m as [|x m].
      * simpl in Hq. subst q. apply in_order_cons. apply (IH 0%nat).
      * injection Hq as -> ->. cbn [length Nat.pred].
        specialize (IH (length m)). by rewrite drop_app_length in IH.
    + apply in_order_cons. apply (IH 0%nat).
Qed.

Lemma denotes_EMAIL w : denotes Re.EMAIL w <-> email_shaped w.
Proof.
  unfold email_shaped, Re.EMAIL; simpl. split.
  - intros (l & w1 & -> & Hl & Fl & c1 & w2 & -> & Hc1 & d & w3 & -> & Hd & Fd
            & c2 & w4 & -> & Hc2 & tl & w5 & -> & Ht & Ft & ->).
    apply N.eqb_eq in Hc1 as ->. apply N.eqb_eq in Hc2 as ->.
    exists l, d, tl. rewrite app_nil_r. auto 10.
  - intros (l & d & tl & -> & Hl & Fl & Hd & Fd & Ht & Ft).
    exists l, (Re.AT :: d ++ Re.DOT :: tl). repeat split; auto.
    exists Re.AT, (d ++ Re.DOT :: tl). repeat split; auto.
    exists d, (Re.DOT :: tl). repeat split; auto.
    exists Re.DOT, tl. repeat split; auto.
    exists tl, []. rewrite app_nil_r. auto.
Qed.

(** ** Which matches are found: leftmost, longest, non-overlapping *)

Lemma match_here_atleast set n p s :
  Re.match_here (Re.Item set (Re.AtLeast n) :: p) s
  = Re.greedy set (Re.match_here p) n s.
Proof. reflexivity. Qed.

Lemma match_here_once set p c s :
  Re.match_here (Re.Item set Re.Once :: p) (c :: s)
  = if set c then cons c <$> Re.match_here p s else None.
Proof. reflexivity. Qed.

Lemma run_stops (P : N -> bool) (a q x : text) (y : N) (z : text) :
  Forall (fun c => P c = true) a -> P y = false -> a ++ q = x ++ y :: z ->
  (length a <= length x)%nat.
Proof.
  revert x. induction a as [|c a IH]; intros x Ha Hy E; [simpl; lia|].
  apply Forall_cons in Ha as [Hc Ha].
  destruct x as [|c' x]; simpl in E; injection E as -> E.
  - congruence.
  - simpl. specialize (IH x Ha Hy E). lia.
Qed.

Lemma split_at_first (P : N -> bool) (a a' x x' : text) (y : N) :
  Forall (fun c => P c = true) a -> Forall (fun c => P c = true) a' ->
  P y = false -> a ++ y :: x = a' ++ y :: x' -> a = a' /\ x = x'.
Proof.
  revert a'. induction a as [|c a IH]; intros a' Ha Ha' Hy E.
  - destruct a' as [|c' a']; simpl in E.
    + by injection E as ->.
    + injection E as -> E. apply Forall_cons in Ha' as [Hc _]. congruence.
  - apply Forall_cons in Ha as [Hc Ha]. destruct a' as [|c' a']; simpl in E.
    + injection E as -> E. congruence.
    + injection E as -> E. apply Forall_cons in Ha' as [_ Ha'].
      by destruct (IH a' Ha Ha' Hy E) as [-> ->].
Qed.

Lemma email_shaped_nonempty m : email_shaped m -> m <> [].
Proof. intros (l & d & tl & -> & _). by destruct l. Qed.

(** The match the engine finds at a position is the longest string matching
    the rule that starts there: the local part is the whole run before the
    ['@'], the domain part ends at the last dot that two letters follow, and
    the letters after it are taken as far as they go. *)
Lemma engine_longest s m :
  Re.match_here Re.EMAIL s = Some m -> longest_address s m.
Proof.
  intros H. pose proof H as Hs.
  apply match_here_sound in Hs as [Hden Hpre]. apply denotes_EMAIL in Hden.
  split; [done|]. split; [done|]. clear Hden Hpre.
  intros m' (l' & d' & tl' & -> & Hl'1 & Hl' & Hd'1 & Hd' & Ht'1 & Ht') [q Hq].
  unfold Re.EMAIL in H. rewrite match_here_atleast in H.
  apply greedy_longest in H as (l & s1 & w1 & Es & -> & Hk & Hl & _ & _).
  destruct s1 as [|c s2]; [done|]. rewrite match_here_once in Hk.
  destruct (Re.lit Re.AT c) eqn:Hc; [|done]. apply N.eqb_eq in Hc as ->.
  rewrite match_here_atleast in Hk.
  destruct (Re.greedy Re.domain_char _ 1 s2) as [w2|] eqn:Hg; [|done].
  cbn [fmap option_fmap option_map] in Hk. injection Hk as <-.
  apply greedy_longest in Hg as (d & s3 & w3 & -> & -> & Hk3 & Hd & _ & Hmaxd).
  destruct s3 as [|c s4]; [done|]. rewrite match_here_once in Hk3.
  destruct (Re.lit Re.DOT c) eqn:Hc; [|done]. apply N.eqb_eq in Hc as ->.
  rewrite match_here_atleast in Hk3.
  destruct (Re.greedy Re.is_letter _ 2 s4) as [w4|] eqn:Hg; [|done].
  cbn [fmap option_fmap option_map] in Hk3. injection Hk3 as <-.
  apply greedy_longest in Hg as (tl & s5 & w5 & -> & -> & Hk5 & Ht & _ & Hmaxt).
  cbn [Re.match_here] in Hk5. injection Hk5 as <-.
  assert (Htl : forall t2 s2, tl ++ s5 = t2 ++ s2 ->
                  Forall (fun c => Re.is_letter c = true) t2 ->
                  (length t2 <= length tl)%nat).
  { intros t2 s2 E Ht2. destruct (le_lt_dec (length t2) (length tl)); [done|].
    by specialize (Hmaxt t2 s2 E Ht2 l0). }
  rewrite Es in Hq. rewrite <- !app_assoc in Hq. cbn [app] in Hq.
  rewrite <- !app_assoc in Hq. cbn [app] in Hq.
  destruct (split_at_first Re.local_char l l' _ _ Re.AT Hl Hl' eq_refl Hq)
    as [<- Hq2].
  rewrite app_nil_r, !length_app. cbn [length]. rewrite !length_app. cbn [length].
  apply app_eq_app in Hq2 as (x & [[-> Hx] | [-> Hx]]); destruct x as [|c x].
  - injection Hx as Hx. symmetry in Hx. specialize (Htl tl' q Hx Ht').
    rewrite app_nil_r. lia.
  - injection Hx as <- Hx.
    pose proof (run_stops Re.is_letter tl' q x Re.DOT _ Ht' eq_refl Hx).
    rewrite length_app. cbn [length]. lia.
  - injection Hx as Hx. specialize (Htl tl' q Hx Ht').
    rewrite app_nil_r. lia.
  - injection Hx as <- Hx. exfalso.
    assert (Hnone : Re.match_here
                      [Re.Item (Re.lit Re.DOT) Re.Once;
                       Re.Item Re.is_letter (Re.AtLeast 2)]
                      (Re.DOT :: tl' ++ q) = None).
    { apply (Hmaxd (d ++ Re.DOT :: x)); [|done|rewrite length_app; simpl; lia].
      rewrite Hx. rewrite <- !app_assoc. done. }
    destruct (match_here_complete
                [Re.Item (Re.lit Re.DOT) Re.Once;
                 Re.Item Re.is_letter (Re.AtLeast 2)]
                (Re.DOT :: tl' ++ q)) as [y Hy]; [|congruence].
    exists (Re.DOT :: tl'). split; [|by exists q].
    exists Re.DOT, tl'. split; [done|]. split; [done|].
    exists tl', []. by rewrite app_nil_r.
Qed.

Lemma longest_address_unique s m m' :
  longest_address s m -> longest_address s m' -> m = m'.
Proof.
  intros (Hs & [q Hq] & Hmax) (Hs' & [q' Hq'] & Hmax').
  assert (Hl : length m = length m').
  { apply Nat.le_antisymm.
    - apply Hmax'; [done | by exists q].
    - apply Hmax; [done | by exists q']. }
  rewrite Hq in Hq'. by apply app_inj_1 in Hq' as [? _].
Qed.

Lemma scan_skip p (a rest : text) :
  Re.scan p (length a) (a ++ rest) = Re.scan p 0 rest.
Proof. induction a as [|x a IH]; [done | exact IH]. Qed.

Lemma no_match_no_prefix s :
  Re.match_here Re.EMAIL s = None ->
  forall m, m `prefix_of` s -> ~ email_shaped m.
Proof.
  intros H m Hp Hm.
  destruct (match_here_complete Re.EMAIL s) as [x Hx]; [|congruence].
  exists m. split; [by apply denotes_EMAIL | done].
Qed.

Lemma findall_leftmost t : leftmost_matches t (Re.findall Re.EMAIL t).
Proof.
  unfold Re.findall. remember (length t) as n eqn:Hn. revert t Hn.
  induction n as [n IH] using lt_wf_ind. intros [|c s] Hn.
  - exact lm_end.
  - cbn [Re.scan]. destruct (Re.match_here Re.EMAIL (c :: s)) as [m|] eqn:Hm.
    + pose proof (engine_longest _ _ Hm) as Hlong.
      pose proof Hlong as (Hs & [rest Hr] & _).
      destruct m as [|x m]; [by apply email_shaped_nonempty in Hs|].
      injection Hr as <- Hr. subst s. cbn [length Nat.pred]. rewrite scan_skip.
      apply (lm_take (c :: m) rest); [done|].
      apply (IH (length rest)); [|done].
      subst n. cbn [length]. rewrite length_app. lia.
    + apply lm_skip; [by apply no_match_no_prefix|].
      apply (IH (length s)); [subst n; cbn [length]; lia | done].
Qed.

Lemma leftmost_unique t ms :
  leftmost_matches t ms -> ms = Re.findall Re.EMAIL t.
Proof.
  unfold Re.findall. induction 1 as [|c s ms Hno _ IH|m rest ms Hlong _ IH].
  - done.
  - cbn [Re.scan].
    destruct (Re.match_here Re.EMAIL (c :: s)) as [m|] eqn:Hm; [|done].
    destruct (match_here_sound _ _ _ Hm) as [Hd Hp].
    apply denotes_EMAIL in Hd. by destruct (Hno m).
  - pose proof Hlong as (Hs & Hp & _).
    destruct (match_here_complete Re.EMAIL (m ++ rest)) as [m2 Hm2].
    { exists m. split; [by apply denotes_EMAIL | done]. }
    pose proof (longest_address_unique _ _ _ (engine_longest _ _ Hm2) Hlong) as ->.
    destruct m as [|x m]; [by apply email_shaped_nonempty in Hs|].
    cbn [app] in *. cbn [Re.scan]. rewrite Hm2. cbn [length Nat.pred].
    by rewrite scan_skip, IH.
Qed.

(** ** The Pattern Matcher *)

Lemma find_emails_sound t e :
  e ∈ find_emails t -> occurs_in e t /\ email_shaped e.
Proof.
  unfold find_emails, Re.findall. rewrite elem_of_list_to_set. intros H.
  destruct (scan_sound _ _ _ _ H) as [HD Ho].
  split; [done | by apply denotes_EMAIL].
Qed.

Lemma find_emails_empty_iff t :
  find_emails t = ∅ <-> (forall w, occurs_in w t -> ~ email_shaped w).
Proof.
  split.
  - intros E w Ho Hw.
    apply (scan_complete Re.EMAIL t).
    + exists w. split; [by apply denotes_EMAIL | done].
    + unfold find_emails, Re.findall in E.
      destruct (Re.scan Re.EMAIL 0 t) as [|m l]; [done|].
      exfalso. apply (not_elem_of_empty (C:=gset text) m).
      rewrite <- E. set_solver.
  - intros H. apply leibniz_equiv. apply elem_of_equiv_empty. intros e He.
    destruct (find_emails_sound _ _ He) as [Ho Hs]. by apply (H e).
Qed.

Lemma find_emails_scenario_1 :
  find_emails (codes "Contact: a.b+c@example.co.uk or bad-email")
  = {[ codes "a.b+c@example.co.uk" ]}.
Proof.
  unfold find_emails.
  replace (Re.findall Re.EMAIL (codes "Contact: a.b+c@example.co.uk or bad-email"))
    with [codes "a.b+c@example.co.uk"] by (vm_compute; reflexivity).
  set_solver.
Qed.

Lemma email_shaped_intro l d tl :
  (1 <= length l)%nat -> forallb Re.local_char l = true ->
  (1 <= length d)%nat -> forallb Re.domain_char d = true ->
  (2 <= length tl)%nat -> forallb Re.is_letter tl = true ->
  email_shaped (l ++ Re.AT :: d ++ Re.DOT :: tl).
Proof.
  intros Hl Fl Hd Fd Ht Ft. exists l, d, tl.
  rewrite forallb_forall in Fl, Fd, Ft.
  repeat split; auto; apply List.Forall_forall; auto.
Qed.

(** C1, as stated, fails: ["a@b.co"] is a substring of ["a@b.com"] that
    matches the rule, and the matcher returns only ["a@b.com"]. *)
Lemma pattern_matcher_not_every_matching_substring :
  let t := codes "a@b.com" in
  let w := codes "a@b.co" in
  ~ (w ∈ find_emails t <-> occurs_in w t /\ email_shaped w).
Proof.
  intros t w H.
  assert (Hin : codes "a@b.co" ∈ find_emails (codes "a@b.com")).
  { apply H. split.
    - by exists [], (codes "m").
    - apply (email_shaped_intro (codes "a") (codes "b") (codes "co"));
        vm_compute; (reflexivity || lia). }
  unfold find_emails in Hin.
  replace (Re.findall Re.EMAIL (codes "a@b.com"))
    with [codes "a@b.com"] in Hin by (vm_compute; reflexivity).
  apply elem_of_list_to_set, list_elem_of_singleton in Hin. discriminate Hin.
Qed.

(** C1 (amended): every string the Pattern Matcher returns is a substring
    of the text that matches the rule (one or more local characters, ['@'],
    one or more domain characters, ['.'], two or more letters); the matches
    found lie in the text one after the other, without overlap; they are
    exactly the leftmost, longest, non-overlapping matches of the rule: read
    from left to right, the first position where a string matching the rule
    starts gives the longest such string, and the reading resumes after its
    last character; the returned set is the set of these matches, and it is
    empty exactly when no substring of the text matches the rule; on
    ["Contact: a.b+c@example.co.uk or bad-email"] it is
    [{"a.b+c@example.co.uk"}]. *)
Theorem pattern_matcher_returns_matching_substrings :
  (forall t e, e ∈ find_emails t -> occurs_in e t /\ email_shaped e)
  /\ (forall t, in_order (Re.findall Re.EMAIL t) t)
  /\ (forall t ms, leftmost_matches t ms <-> ms = Re.findall Re.EMAIL t)
  /\ (forall t ms, leftmost_matches t ms -> find_emails t = list_to_set ms)
  /\ (forall t e, e ∈ find_emails t <->
                  exists ms, leftmost_matches t ms /\ e ∈ ms)
  /\ (forall t, find_emails t = ∅ <-> (forall w, occurs_in w t -> ~ email_shaped w))
  /\ find_emails (codes "Contact: a.b+c@example.co.uk or bad-email")
     = {[ codes "a.b+c@example.co.uk" ]}.
Proof.
  split; [exact find_emails_sound|].
  split; [intros t; apply (scan_in_order Re.EMAIL t 0%nat)|].
  split.
  { intros t ms. split; [apply leftmost_unique|]. intros ->.
    apply findall_leftmost. }
  split.
  { intros t ms H. by rewrite (leftmost_unique t ms H). }
  split.
  { intros t e. unfold find_emails. rewrite elem_of_list_to_set. split.
    - intros He. exists (Re.findall Re.EMAIL t).
      split; [apply findall_leftmost | done].
    - intros (ms & H & He). by rewrite <- (leftmost_unique t ms H). }
  split; [exact find_emails_empty_iff | exact find_emails_scenario_1].
Qed.

(** ** Traces *)

Lemma bind_eq {A B} (m : M A) (k : A -> M B) :
  bind m k = (trace m ++ trace (k (result m)), result (k (result m))).
Proof.
  destruct m as [t a]. unfold bind, trace, result; simpl.
  by destruct (k a).
Qed.

Lemma opened_app t1 t2 : opened (t1 ++ t2) = opened t1 ++ opened t2.
Proof. apply flat_map_app. Qed.

Lemma http_gets_app t1 t2 : http_gets (t1 ++ t2) = http_gets t1 ++ http_gets t2.
Proof. apply flat_map_app. Qed.

Lemma file_result p r :
  result (extract_emails_from_file p r)
  = match r with ReadOk t => Some (find_emails t) | _ => None end.
Proof. by destruct r. Qed.

Lemma file_opened p r : opened (trace (extract_emails_from_file p r)) = [p].
Proof. by destruct r. Qed.

Lemma file_http_gets p r : http_gets (trace (extract_emails_from_file p r)) = [].
Proof. by destruct r. Qed.

(** ** The merge *)

Lemma merge_cons f fs :
  merge (f :: fs)
  = match snd f with ReadOk t => find_emails t | _ => ∅ end ∪ merge fs.
Proof.
  unfold merge, readable_texts. simpl.
  destruct (snd f); simpl; [done | |]; by rewrite (left_id_L ∅ (∪)).
Qed.

Lemma merge_app l1 l2 : merge (l1 ++ l2) = merge l1 ∪ merge l2.
Proof.
  induction l1 as [|f l1 IH]; simpl.
  - unfold merge at 2. simpl. by rewrite (left_id_L ∅ (∪)).
  - by rewrite !merge_cons, IH, (assoc_L (∪)).
Qed.

Lemma elem_of_merge e fs :
  e ∈ merge fs <-> exists p t, (p, ReadOk t) ∈ fs /\ e ∈ find_emails t.
Proof.
  induction fs as [|[p r] fs IH].
  - unfold merge; simpl. split; [set_solver|]. intros (p & t & H & _).
    by apply elem_of_nil in H.
  - rewrite merge_cons, elem_of_union, IH. simpl. split.
    + intros [H|(q & t & H1 & H2)].
      * destruct r as [t| |]; [|set_solver..]. exists p, t. split; [left | done].
      * exists q, t. split; [by right | done].
    + intros (q & t & H1 & H2). apply elem_of_cons in H1 as [E|H1].
      * injection E as -> <-. by left.
      * right. eauto.
Qed.

(** ** The directory walk *)

Lemma read_files_eq root dirs files all :
  read_files root files all
  = (flat_map file_events (triple_files (root, dirs, files)),
     all ∪ merge (triple_files (root, dirs, files))).
Proof.
  unfold read_files. revert all.
  induction files as [|f fs IH]; intros all; simpl.
  - unfold ret, merge; simpl. by rewrite (right_id_L ∅ (∪)).
  - rewrite bind_eq. rewrite (bind_eq (extract_emails_from_file _ _)).
    simpl. rewrite app_nil_r, IH. simpl. rewrite merge_cons. simpl.
    rewrite file_result. unfold file_events at 1. simpl.
    f_equal. destruct (snd f); set_solver.
Qed.

Lemma walk_loop_eq top rec steps all :
  walk_loop top rec steps all
  = (flat_map file_events (flat_map triple_files (taken rec steps))
     ++ (if walk_fails rec steps then [Log ERROR (MsgDirError top)] else []),
     if walk_fails rec steps then None
     else Some (all ∪ merge (flat_map triple_files (taken rec steps)))).
Proof.
  revert all. induction steps as [|[[[root dirs] files]|] steps IH]; intros all.
  - cbn. unfold ret, merge; cbn. by rewrite (right_id_L ∅ (∪)).
  - cbn [walk_loop taken walk_fails flat_map].
    rewrite bind_eq, (read_files_eq root dirs). cbn [trace result fst snd].
    destruct rec; cbn [andb].
    + rewrite IH. cbn [fst snd]. rewrite !flat_map_app, merge_app, <- app_assoc.
      destruct (walk_fails true steps); [done|]. by rewrite (assoc_L (∪)).
    + unfold ret. cbn [fst snd flat_map]. by rewrite !app_nil_r.
  - cbn [walk_loop taken walk_fails flat_map]. by rewrite bind_eq.
Qed.

Lemma directory_eq directory_path tree recursive :
  extract_emails_from_directory directory_path tree recursive
  = (flat_map file_events (visited directory_path tree recursive)
     ++ (if walk_raises directory_path tree recursive
         then [Log ERROR (MsgDirError directory_path)] else []),
     if walk_raises directory_path tree recursive then None
     else Some (merge (visited directory_path tree recursive))).
Proof.
  unfold extract_emails_from_directory, visited, walk_raises.
  rewrite walk_loop_eq. by rewrite (left_id_L ∅ (∪)).
Qed.

Lemma opened_file_events fs : opened (flat_map file_events fs) = fs.*1.
Proof.
  induction fs as [|[p r] fs IH]; [done|].
  simpl. rewrite opened_app, IH. unfold file_events. by rewrite file_opened.
Qed.

Lemma http_gets_file_events fs : http_gets (flat_map file_events fs) = [].
Proof.
  induction fs as [|[p r] fs IH]; [done|].
  simpl. rewrite http_gets_app, IH. unfold file_events. by rewrite file_http_gets.
Qed.

Lemma node_nested_ind (P : node -> Prop) :
  (forall r, P (File r)) ->
  (forall b es, Forall (fun e => P (snd e)) es -> P (Dir b es)) ->
  (forall es, Forall (fun e => P (snd e)) es -> P (RaisingDir es)) ->
  (forall t, P t -> P (Symlink t)) ->
  forall n, P n.
Proof.
  intros Hf Hd Hr Hs. fix IH 1. intros [r|b es|es|t].
  - apply Hf.
  - apply Hd. induction es as [|[name sub] es IHes]; constructor;
      [apply IH | apply IHes].
  - apply Hr. induction es as [|[name sub] es IHes]; constructor;
      [apply IH | apply IHes].
  - apply Hs, IH.
Qed.

Lemma resolve_idem n : resolve (resolve n) = resolve n.
Proof. induction n as [| | |t IH] using node_nested_ind; done. Qed.

Lemma resolve_not_symlink n t : resolve n <> Symlink t.
Proof. induction n as [| | |t' IH] using node_nested_ind; done. Qed.

Lemma walk_tree_dir top es :
  walk_tree top (Dir true es)
  = Yield (top, dir_names es, file_entries es)
    :: flat_map (fun e => walk_tree (os_path_join top (fst e)) (snd e)) es.
Proof.
  cbn [walk_tree]. f_equal.
  induction es as [|[name [r|b es'|es'|t]] es IH]; [done|..];
    cbn [flat_map fst snd]; by rewrite IH.
Qed.

Lemma reach_at_dir p es :
  reach_at p (Dir true es)
  = flat_map (fun e => reach_at (os_path_join p (fst e)) (snd e)) es.
Proof.
  cbn [reach_at]. induction es as [|[name sub] es IH]; [done|].
  cbn [flat_map fst snd]. by rewrite IH.
Qed.

Lemma files_at_dir p b es :
  files_at p (Dir b es)
  = flat_map (fun e => files_at (os_path_join p (fst e)) (snd e)) es.
Proof.
  cbn [files_at]. induction es as [|[name sub] es IH]; [done|].
  cbn [flat_map fst snd]. by rewrite IH.
Qed.

Lemma yields_app s1 s2 : yields (s1 ++ s2) = yields s1 ++ yields s2.
Proof. apply flat_map_app. Qed.

(** The files of all the triples of a walk are the files within reach. *)
Lemma walk_reaches n :
  forall p,
    match resolve n with File r => [(p, r)] | _ => [] end
    ++ flat_map triple_files (yields (walk_tree p n))
    ≡ₚ reach_at p n.
Proof.
  induction n as [r|b es IH|es IH|t IH] using node_nested_ind; intros p.
  - done.
  - destruct b; [|done]. rewrite walk_tree_dir, reach_at_dir.
    cbn [resolve app yields flat_map triple_files].
    fold (yields (flat_map (fun e => walk_tree (os_path_join p e.1) e.2) es)).
    induction IH as [|[name sub] es Hsub _ IHes]; [done|].
    cbn [file_entries flat_map fst snd]. fold (file_entries es).
    rewrite map_app, yields_app, flat_map_app, <- IHes, <- (Hsub (os_path_join p name)).
    rewrite <- !app_assoc. apply Permutation_app.
    + cbn [snd]. by destruct (resolve sub).
    + cbn [snd]. apply Permutation_app_swap_app.
  - done.
  - cbn [resolve walk_tree yields flat_map reach_at]. by rewrite app_nil_r.
Qed.

Lemma taken_all steps :
  walk_fails true steps = false -> taken true steps = yields steps.
Proof.
  induction steps as [|[tr|] steps IH]; [done| |done].
  cbn [walk_fails andb taken yields flat_map app]. intros H. by rewrite IH.
Qed.

Lemma taken_yields rec steps tr : tr ∈ taken rec steps -> tr ∈ yields steps.
Proof.
  induction steps as [|[tr'|] steps IH]; cbn [taken yields flat_map app];
    [done| |by intros ?%elem_of_nil].
  intros [->|H]%elem_of_cons; [left|right].
  destruct rec; [by apply IH | by apply elem_of_nil in H].
Qed.

Lemma walk_fails_raise steps : walk_fails true steps = true <-> Raise ∈ steps.
Proof.
  induction steps as [|[tr|] steps IH]; cbn [walk_fails andb].
  - split; [done | by intros ?%elem_of_nil].
  - rewrite IH. split; [by right|]. by intros [?|?]%elem_of_cons.
  - split; [left | done].
Qed.

Lemma plain_walk n :
  plain n = true ->
  forall p, (Raise ∉ walk_tree p n) /\ reach_at p n = files_at p n.
Proof.
  induction n as [r|b es IH|es IH|t IH] using node_nested_ind; intros H p.
  - split; [by intros ?%elem_of_nil | done].
  - cbn [plain] in H. apply andb_true_iff in H as [-> H].
    rewrite walk_tree_dir, reach_at_dir, files_at_dir.
    enough ((Raise ∉ flat_map (fun e => walk_tree (os_path_join p e.1) e.2) es)
            /\ flat_map (fun e => reach_at (os_path_join p e.1) e.2) es
               = flat_map (fun e => files_at (os_path_join p e.1) e.2) es)
      as [H1 H2].
    { split; [|done]. by intros [?|?]%elem_of_cons. }
    induction IH as [|[name sub] es Hsub _ IHes];
      [split; [by intros ?%elem_of_nil | done]|].
    apply andb_true_iff in H as [Hs H].
    destruct (IHes H) as [H1 H2].
    destruct (Hsub Hs (os_path_join p name)) as [H3 H4].
    cbn [flat_map fst snd] in *. split.
    + by intros [?|?]%elem_of_app.
    + by rewrite H2, H4.
  - done.
  - cbn [plain] in H. split; [by intros ?%elem_of_nil|].
    cbn [reach_at files_at]. destruct (resolve t) as [r| | |] eqn:E; try done.
    clear IH H. revert E. induction t as [| | |t IH] using node_nested_ind;
      cbn [resolve files_at]; try done.
    by intros [= ->].
Qed.

Lemma visited_top_level top n :
  visited top (Some n) false
  = if has_nul top then []
    else match resolve n with
         | Dir true _ => files_directly_in top (resolve n)
         | _ => []
         end.
Proof.
  unfold visited, os_walk. destruct (has_nul top); [done|].
  destruct (resolve n) as [r|[] es|es|t]; try done.
  cbn [walk_tree taken flat_map triple_files files_directly_in].
  by rewrite app_nil_r.
Qed.

Lemma visited_reachable top n :
  has_nul top = false ->
  flat_map triple_files (yields (os_walk top (Some n)))
  ≡ₚ files_reachable top (resolve n).
Proof.
  intros Hn. unfold os_walk. rewrite Hn.
  pose proof (walk_reaches (resolve n) top) as H. rewrite resolve_idem in H.
  by destruct (resolve n) as [r|[] es|es|t].
Qed.

Lemma visited_recursive top n :
  walk_raises top (Some n) true = false ->
  visited top (Some n) true ≡ₚ files_reachable top (resolve n).
Proof.
  unfold walk_raises, visited. intros H. rewrite (taken_all _ H).
  destruct (has_nul top) eqn:Hn; [|by apply visited_reachable].
  unfold os_walk in H. by rewrite Hn in H.
Qed.

Lemma visited_within_reach top n f :
  f ∈ visited top (Some n) true -> f ∈ files_reachable top (resolve n).
Proof.
  unfold visited. intros H.
  destruct (has_nul top) eqn:Hn.
  - unfold os_walk in H. rewrite Hn in H. by apply elem_of_nil in H.
  - rewrite <- (visited_reachable top n Hn).
    apply list_elem_of_In, in_flat_map in H as (tr & Htr & Hf).
    apply list_elem_of_In, in_flat_map. exists tr. split; [|done].
    apply list_elem_of_In. eapply taken_yields. by apply list_elem_of_In.
Qed.

Lemma plain_tree top n :
  has_nul top = false -> plain (resolve n) = true ->
  walk_raises top (Some n) true = false
  /\ files_reachable top (resolve n) = files_under top (resolve n).
Proof.
  intros Hn Hp. destruct (plain_walk _ Hp top) as [H1 H2]. split.
  - unfold walk_raises, os_walk. rewrite Hn.
    destruct (walk_fails true (walk_tree top (resolve n))) eqn:E; [|done].
    by apply walk_fails_raise in E.
  - destruct (resolve n) as [r|[] es|es|t] eqn:E; try done.
    by apply resolve_not_symlink in E.
Qed.

Lemma directory_opened top tree rec :
  opened (trace (extract_emails_from_directory top tree rec))
  = (visited top tree rec).*1.
Proof.
  rewrite directory_eq. cbn [trace fst].
  rewrite opened_app, opened_file_events.
  destruct (walk_raises top tree rec); by rewrite app_nil_r.
Qed.

Lemma directory_result top tree rec :
  result (extract_emails_from_directory top tree rec)
  = if walk_raises top tree rec then None
    else Some (merge (visited top tree rec)).
Proof. by rewrite directory_eq. Qed.

Lemma directory_http_gets top tree rec :
  http_gets (trace (extract_emails_from_directory top tree rec)) = [].
Proof.
  rewrite directory_eq. cbn [trace fst].
  rewrite http_gets_app, http_gets_file_events.
  by destruct (walk_raises top tree rec).
Qed.

(** C2, as stated, fails: a file below a subdirectory that cannot be listed
    is a file of the tree, and the recursive walk does not visit it. *)
Lemma recursive_walk_misses_unlistable_subdirectory :
  let top := codes "d" in
  let n := Dir true [(codes "sub",
                      Dir false [(codes "f.txt", File (ReadOk (codes "x@y.com")))])] in
  let f := (codes "d/sub/f.txt", ReadOk (codes "x@y.com")) in
  ~ (f ∈ files_under top n ->
     f.1 ∈ opened (trace (extract_emails_from_directory top (Some n) true)))
  /\ extract_emails_from_directory top (Some n) true = ([], Some ∅).
Proof.
  intros top n f. split; [|reflexivity]. intros H.
  rewrite directory_opened in H.
  assert (Hin : codes "d/sub/f.txt" ∈ ([] : list text)); [|by apply elem_of_nil in Hin].
  apply H. vm_compute. left.
Qed.

(** C2 (amended): with [recursive=false] the directory extraction visits
    exactly the files directly in the top-level directory, and no file
    inside a subdirectory; with [recursive=true] it visits only files that
    are reached from the top through directories that can be listed and are
    no symbolic links, and all of them unless an exception leaves the walk;
    these are all the files at every nesting depth when the tree has no
    directory that cannot be listed, none at which the walk raises and no
    symbolic link to a directory; in both cases the files handed to the
    File Reader are the visited ones, and the result is the union of the
    extraction results of the visited readable files, or the Failure Marker
    when an exception left the walk. *)
Theorem directory_walk_visits :
  (forall top n,
     visited top (Some n) false
     = if has_nul top then []
       else match resolve n with
            | Dir true _ => files_directly_in top (resolve n)
            | _ => []
            end)
  /\ (forall top n f,
        f ∈ visited top (Some n) true -> f ∈ files_reachable top (resolve n))
  /\ (forall top n,
        walk_raises top (Some n) true = false ->
        visited top (Some n) true ≡ₚ files_reachable top (resolve n))
  /\ (forall top n,
        has_nul top = false -> plain (resolve n) = true ->
        walk_raises top (Some n) true = false
        /\ files_reachable top (resolve n) = files_under top (resolve n))
  /\ (forall top tree rec,
        opened (trace (extract_emails_from_directory top tree rec))
        = (visited top tree rec).*1
        /\ result (extract_emails_from_directory top tree rec)
           = if walk_raises top tree rec then None
             else Some (⋃ (find_emails <$> readable_texts (visited top tree rec)))).
Proof.
  split; [exact visited_top_level|].
  split; [exact visited_within_reach|].
  split; [exact visited_recursive|].
  split; [exact plain_tree|].
  intros top tree rec. split; [apply directory_opened | apply directory_result].
Qed.

(** ** Unreadable files *)

Lemma unreadable_dir b es :
  unreadable (Dir b es) = Dir b (map (fun e => (fst e, unreadable (snd e))) es).
Proof.
  cbn [unreadable]. f_equal. induction es as [|[name sub] es IH]; [done|].
  cbn [map fst snd]. by rewrite IH.
Qed.

Lemma resolve_unreadable n : resolve (unreadable n) = unreadable (resolve n).
Proof. induction n as [| | |t IH] using node_nested_ind; done. Qed.

Lemma walk_unreadable_shape n :
  forall p, map is_raise (walk_tree p (unreadable n))
            = map is_raise (walk_tree p n).
Proof.
  induction n as [r|b es IH|es IH|t IH] using node_nested_ind; intros p;
    [done| |done|done].
  rewrite unreadable_dir. destruct b; [|done].
  rewrite !walk_tree_dir. cbn [map is_raise]. f_equal.
  induction IH as [|[name sub] es Hsub _ IHes]; [done|].
  cbn [map flat_map fst snd]. rewrite !map_app, IHes. f_equal. apply Hsub.
Qed.

Lemma walk_fails_shape rec s :
  forall s', map is_raise s = map is_raise s' ->
             walk_fails rec s = walk_fails rec s'.
Proof.
  induction s as [|[tr|] s IH]; intros [|[tr'|] s'] H; try done.
  cbn [walk_fails]. f_equal. apply IH. by injection H.
Qed.

Lemma walk_unreadable_files n :
  forall p, Forall (fun f => snd f = ReadFailed)
              (flat_map triple_files (yields (walk_tree p (unreadable n)))).
Proof.
  induction n as [r|b es IH|es IH|t IH] using node_nested_ind; intros p;
    [done| |done|done].
  rewrite unreadable_dir. destruct b; [|done].
  rewrite walk_tree_dir. cbn [yields flat_map triple_files app].
  fold (yields (flat_map (fun e => walk_tree (os_path_join p e.1) e.2)
                  (map (fun e => (e.1, unreadable e.2)) es))).
  apply Forall_app. split.
  - apply Forall_map. clear IH.
    induction es as [|[name sub] es IHes]; [done|].
    cbn [map file_entries flat_map fst snd]. fold (file_entries
      (map (fun e : text * node => (e.1, unreadable e.2)) es)).
    apply Forall_app. split; [|done].
    rewrite resolve_unreadable. by destruct (resolve sub); repeat constructor.
  - induction IH as [|[name sub] es Hsub _ IHes]; [done|].
    cbn [map flat_map fst snd]. rewrite yields_app, flat_map_app.
    apply Forall_app. split; [apply Hsub | done].
Qed.

Lemma unreadable_tree top n rec :
  walk_raises top (Some (unreadable n)) rec = walk_raises top (Some n) rec
  /\ (walk_raises top (Some n) rec = false ->
      result (extract_emails_from_directory top (Some (unreadable n)) rec)
      = Some ∅).
Proof.
  assert (Hw : walk_raises top (Some (unreadable n)) rec
               = walk_raises top (Some n) rec).
  { unfold walk_raises, os_walk. destruct (has_nul top); [done|].
    apply walk_fails_shape. rewrite resolve_unreadable.
    apply walk_unreadable_shape. }
  split; [done|]. intros Hr.
  rewrite directory_result, Hw, Hr. f_equal.
  apply leibniz_equiv, elem_of_equiv_empty. intros e He.
  apply elem_of_merge in He as (p & t & Hin & _).
  unfold visited in Hin.
  apply list_elem_of_In, in_flat_map in Hin as (tr & Htr & Hf).
  apply list_elem_of_In, taken_yields in Htr.
  assert (Hall : Forall (fun f => snd f = ReadFailed)
                   (flat_map triple_files
                      (yields (os_walk top (Some (unreadable n)))))).
  { unfold os_walk. destruct (has_nul top); [done|].
    rewrite resolve_unreadable. apply walk_unreadable_files. }
  rewrite List.Forall_forall in Hall.
  specialize (Hall (p, ReadOk t)). cbn [snd] in Hall.
  assert (Hbad : ReadOk t = ReadFailed); [|discriminate Hbad].
  apply Hall, in_flat_map. exists tr. split; [by apply list_elem_of_In | done].
Qed.

(** C4: in a directory extraction every visited file is handed to the File
    Reader, also after one that failed; a file whose reading fails
    contributes nothing and does not stop the loop; the returned set is the
    merge of the extraction results of the readable visited files; and no
    unreadable file makes the extraction fail: it returns the Failure Marker
    only when an exception leaves the walk, which happens or not whatever
    the files are (with every file unreadable the extraction fails in the
    same cases and otherwise returns the empty set). *)
Theorem unreadable_files_are_skipped top tree rec :
  let fs := visited top tree rec in
  opened (trace (extract_emails_from_directory top tree rec)) = fs.*1
  /\ result (extract_emails_from_directory top tree rec)
     = (if walk_raises top tree rec then None
        else Some (⋃ (find_emails <$> readable_texts fs)))
  /\ (forall root l1 name l2 all,
        let around r := read_files root (l1 ++ (name, r) :: l2) all in
        result (around ReadNotFound) = result (read_files root (l1 ++ l2) all)
        /\ result (around ReadFailed) = result (read_files root (l1 ++ l2) all)
        /\ opened (trace (around ReadNotFound))
           = map (os_path_join root) (l1.*1 ++ name :: l2.*1)
        /\ opened (trace (around ReadFailed))
           = map (os_path_join root) (l1.*1 ++ name :: l2.*1))
  /\ (forall n,
        walk_raises top (Some (unreadable n)) rec = walk_raises top (Some n) rec
        /\ (walk_raises top (Some n) rec = false ->
            result (extract_emails_from_directory top (Some (unreadable n)) rec)
            = Some ∅)).
Proof.
  split; [apply directory_opened|].
  split; [apply directory_result|].
  split; [|intros n; apply unreadable_tree].
  intros root l1 name l2 all around. subst around. cbv beta.
  rewrite !(read_files_eq root []). cbn [result trace fst snd triple_files].
  rewrite !opened_file_events, !map_app, !merge_app. cbn [map].
  rewrite !merge_cons. cbn [fst snd]. rewrite !(left_id_L ∅ (∪)).
  assert (Hp : forall l : list (text * read_outcome),
             map fst (map (fun f => (os_path_join root f.1, f.2)) l)
             = map (os_path_join root) l.*1).
  { induction l as [|f l IH]; [done|]. simpl. by rewrite IH. }
  by rewrite !Hp.
Qed.

(** C5 (the code departs from it): a top directory that cannot be listed,
    and a path that names nothing, are passed over by [os.walk]: no file is
    read and the extraction returns the empty set, a success.  (A path with
    a NUL character makes [scandir] raise [ValueError], which is logged and
    gives the Failure Marker.) *)
Theorem unlistable_root_gives_empty_set top es rec :
  extract_emails_from_directory top (Some (Dir false es)) rec
  = (if has_nul top then ([Log ERROR (MsgDirError top)], None)
     else ([], Some ∅))
  /\ extract_emails_from_directory top None rec
     = (if has_nul top then ([Log ERROR (MsgDirError top)], None)
        else ([], Some ∅)).
Proof.
  unfold extract_emails_from_directory, os_walk.
  by destruct (has_nul top), rec.
Qed.

(** C8: on a text without any substring matching the pattern, the
    extraction of a file that was read, and of a page that was fetched,
    returns the empty set and not the Failure Marker. *)
Theorem no_match_gives_empty_set p u t :
  (forall w, occurs_in w t -> ~ email_shaped w) ->
  result (extract_emails_from_file p (ReadOk t)) = Some ∅
  /\ result (extract_emails_from_url u (Fetched t)) = Some ∅
  /\ result (extract_emails_from_file p (ReadOk t)) <> None
  /\ result (extract_emails_from_url u (Fetched t)) <> None.
Proof.
  intros H. apply find_emails_empty_iff in H.
  unfold result; simpl. rewrite H. done.
Qed.

Lemma no_match_gives_empty_set_witness :
  result (extract_emails_from_file (codes "notes.txt") (ReadOk (codes "or bad-email")))
  = Some ∅
  /\ result (extract_emails_from_url (codes "http://h/") (Fetched (codes "or bad-email")))
     = Some ∅
  /\ result (extract_emails_from_file (codes "notes.txt") (ReadOk (codes "or bad-email")))
     <> None
  /\ result (extract_emails_from_url (codes "http://h/") (Fetched (codes "or bad-email")))
     <> None.
Proof.
  apply (no_match_gives_empty_set (codes "notes.txt") (codes "http://h/")
           (codes "or bad-email")).
  apply find_emails_empty_iff. reflexivity.
Defined.

(** ** The shape of an extracted string *)

Lemma local_not_at c : Re.local_char c = true -> c <> Re.AT.
Proof.
  unfold Re.local_char, Re.is_letter, Re.is_digit, Re.in_range, Re.AT.
  rewrite !orb_true_iff, !andb_true_iff, !N.leb_le, !N.eqb_eq. lia.
Qed.

Lemma domain_not_at c : Re.domain_char c = true -> c <> Re.AT.
Proof.
  unfold Re.domain_char, Re.is_letter, Re.is_digit, Re.in_range, Re.AT.
  rewrite !orb_true_iff, !andb_true_iff, !N.leb_le, !N.eqb_eq. lia.
Qed.

Lemma letter_is_domain c : Re.is_letter c = true -> Re.domain_char c = true.
Proof. unfold Re.domain_char. intros ->. done. Qed.

Lemma local_not_space c : Re.local_char c = true -> is_whitespace c = false.
Proof.
  intros H. apply not_true_is_false. revert H.
  unfold is_whitespace, Re.local_char, Re.is_letter, Re.is_digit, Re.in_range.
  rewrite !orb_true_iff, !andb_true_iff, !N.leb_le, !N.eqb_eq. lia.
Qed.

Lemma domain_not_space c : Re.domain_char c = true -> is_whitespace c = false.
Proof.
  intros H. apply not_true_is_false. revert H.
  unfold is_whitespace, Re.domain_char, Re.is_letter, Re.is_digit, Re.in_range.
  rewrite !orb_true_iff, !andb_true_iff, !N.leb_le, !N.eqb_eq. lia.
Qed.

Lemma count_none (x : N) (l : text) :
  Forall (fun c => c <> x) l -> length (filter (fun c => c = x) l) = 0%nat.
Proof.
  induction 1 as [|c l Hc _ IH]; [done|].
  by rewrite filter_cons_False.
Qed.

Lemma email_shaped_one_at e :
  email_shaped e -> length (filter (fun c => c = Re.AT) e) = 1%nat.
Proof.
  intros (l & d & tl & -> & _ & Fl & _ & Fd & _ & Ft).
  rewrite filter_app, filter_cons_True by done.
  rewrite filter_app, filter_cons_False by done.
  rewrite length_app. cbn [length]. rewrite length_app.
  rewrite !count_none; [done | | |].
  - eapply Forall_impl; [exact Ft|]. intros c Hc. by apply domain_not_at, letter_is_domain.
  - eapply Forall_impl; [exact Fd|]. apply domain_not_at.
  - eapply Forall_impl; [exact Fl|]. apply local_not_at.
Qed.

Lemma email_shaped_sides e :
  email_shaped e -> exists l r, e = l ++ Re.AT :: r /\ l <> [] /\ r <> [].
Proof.
  intros (l & d & tl & -> & Hl & _ & Hd & _).
  exists l, (d ++ Re.DOT :: tl). split; [done|].
  split; [destruct l | destruct d]; (done || (simpl in *; lia)).
Qed.

Lemma email_shaped_no_space e :
  email_shaped e -> Forall (fun c => is_whitespace c = false) e.
Proof.
  intros (l & d & tl & -> & _ & Fl & _ & Fd & _ & Ft).
  apply Forall_app. split; [eapply Forall_impl; [exact Fl | apply local_not_space]|].
  apply Forall_cons. split; [done|].
  apply Forall_app. split; [eapply Forall_impl; [exact Fd | apply domain_not_space]|].
  apply Forall_cons. split; [done|].
  eapply Forall_impl; [exact Ft|]. intros c Hc.
  by apply domain_not_space, letter_is_domain.
Qed.

(** C10: every string of an extraction result holds exactly one ['@'], is
    not empty on either side of it, holds no white space and no line break,
    and is a contiguous substring of the text it was extracted from. *)
Theorem extracted_strings_well_formed t e :
  e ∈ find_emails t ->
  length (filter (fun c => c = Re.AT) e) = 1%nat
  /\ (exists l r, e = l ++ Re.AT :: r /\ l <> [] /\ r <> [])
  /\ Forall (fun c => is_whitespace c = false) e
  /\ Forall (fun c => c <> Re.NEWLINE) e
  /\ occurs_in e t.
Proof.
  intros H. destruct (find_emails_sound _ _ H) as [Ho Hs].
  split; [by apply email_shaped_one_at|].
  split; [by apply email_shaped_sides|].
  split; [by apply email_shaped_no_space|].
  split; [|done].
  eapply Forall_impl; [by apply email_shaped_no_space|].
  intros c Hc ->. discriminate Hc.
Qed.

Lemma extracted_strings_well_formed_witness :
  let e := codes "a.b+c@example.co.uk" in
  length (filter (fun c => c = Re.AT) e) = 1%nat
  /\ (exists l r, e = l ++ Re.AT :: r /\ l <> [] /\ r <> [])
  /\ Forall (fun c => is_whitespace c = false) e
  /\ Forall (fun c => c <> Re.NEWLINE) e
  /\ occurs_in e (codes "Contact: a.b+c@example.co.uk or bad-email").
Proof.
  apply (extracted_strings_well_formed
           (codes "Contact: a.b+c@example.co.uk or bad-email")
           (codes "a.b+c@example.co.uk")).
  rewrite find_emails_scenario_1. by apply elem_of_singleton.
Defined.

(** ** Sets hold each string once *)

Lemma count_nodup (A : text) (l : list text) :
  NoDup l ->
  length (filter (fun x => x = A) l) = if decide (A ∈ l) then 1%nat else 0%nat.
Proof.
  induction 1 as [|x l Hx Hl IH]; [done|].
  destruct (decide (x = A)) as [->|Hne].
  - rewrite filter_cons_True by done. simpl. rewrite IH.
    rewrite decide_False by done. rewrite decide_True by left. done.
  - rewrite filter_cons_False by done. rewrite IH.
    destruct (decide (A ∈ l)) as [Hin|Hout].
    + rewrite decide_True by (by right). done.
    + rewrite decide_False; [done|]. intros [E|Hin]%elem_of_cons; [by subst | done].
Qed.

Lemma occurrences_eq (A : text) (S : gset text) :
  occurrences A S = if decide (A ∈ S) then 1%nat else 0%nat.
Proof.
  unfold occurrences. rewrite count_nodup by apply NoDup_elements.
  destruct (decide (A ∈ elements S)) as [H|H]; rewrite elem_of_elements in H.
  - by rewrite decide_True.
  - by rewrite decide_False.
Qed.

Lemma occurrences_elem (A : text) (S : gset text) : A ∈ S -> occurrences A S = 1%nat.
Proof. intros H. rewrite occurrences_eq. by rewrite decide_True. Qed.

Lemma occurrences_not_elem (A : text) (S : gset text) : A ∉ S -> occurrences A S = 0%nat.
Proof. intros H. rewrite occurrences_eq. by rewrite decide_False. Qed.

Lemma find_emails_thanks :
  find_emails (codes "bob@x.com.Thanks") = {[ codes "bob@x.com.Thanks" ]}.
Proof.
  unfold find_emails.
  replace (Re.findall Re.EMAIL (codes "bob@x.com.Thanks"))
    with [codes "bob@x.com.Thanks"] by (vm_compute; reflexivity).
  set_solver.
Qed.

(** C7, as stated, fails: ["bob@x.com"] is address-like and occurs in
    ["bob@x.com.Thanks"], and the result of that text does not hold it: the
    match runs on to ["bob@x.com.Thanks"]. *)
Lemma occurring_address_may_be_absent :
  let t := codes "bob@x.com.Thanks" in
  let A := codes "bob@x.com" in
  ~ (email_shaped A -> occurs_in A t -> occurrences A (find_emails t) = 1%nat)
  /\ find_emails t = {[ codes "bob@x.com.Thanks" ]}.
Proof.
  intros t A. subst t A. split; [|apply find_emails_thanks]. intros H.
  rewrite find_emails_thanks, occurrences_not_elem in H.
  - enough (0 = 1)%nat by lia. apply H.
    + apply (email_shaped_intro (codes "bob") (codes "x") (codes "com"));
        vm_compute; (reflexivity || lia).
    + by exists [], (codes ".Thanks").
  - intros E%elem_of_singleton. discriminate E.
Qed.

Lemma find_emails_x_y : find_emails (codes "x@y.com") = {[ codes "x@y.com" ]}.
Proof.
  unfold find_emails.
  replace (Re.findall Re.EMAIL (codes "x@y.com"))
    with [codes "x@y.com"] by (vm_compute; reflexivity).
  set_solver.
Qed.

(** C7 (amended): an Extraction Result holds no string twice, and holds
    once every string the Pattern Matcher finds, however often it finds it:
    in one text, and, when the directory extraction returns a set, in the
    readable files of the traversal (a directory whose files [f1.txt] and
    [f2.txt] both hold ["x@y.com"] gives [{"x@y.com"}]). *)
Theorem extraction_results_hold_each_string_once :
  (forall (S : gset text) (A : text),
     (occurrences A S <= 1)%nat /\ (A ∈ S -> occurrences A S = 1%nat))
  /\ (forall (t A : text), A ∈ Re.findall Re.EMAIL t ->
                  occurrences A (find_emails t) = 1%nat)
  /\ (forall top tree rec (S : gset text) (A : text),
        result (extract_emails_from_directory top tree rec) = Some S ->
        (exists p t, (p, ReadOk t) ∈ visited top tree rec
                     /\ A ∈ Re.findall Re.EMAIL t) ->
        occurrences A S = 1%nat)
  /\ result (extract_emails_from_directory (codes "d")
               (Some (Dir true [(codes "f1.txt", File (ReadOk (codes "x@y.com")));
                                (codes "f2.txt", File (ReadOk (codes "x@y.com")))]))
               false)
     = Some {[ codes "x@y.com" ]}.
Proof.
  split; [|split; [|split]].
  - intros S A. split; [|apply occurrences_elem].
    rewrite occurrences_eq. destruct (decide (A ∈ S)); lia.
  - intros t A H. apply occurrences_elem. unfold find_emails.
    by apply elem_of_list_to_set.
  - intros top tree rec S A HS (p & t & Hv & HA).
    rewrite directory_result in HS.
    destruct (walk_raises top tree rec); [done|]. injection HS as <-.
    apply occurrences_elem, elem_of_merge. exists p, t. split; [done|].
    unfold find_emails. by apply elem_of_list_to_set.
  - rewrite directory_result, visited_top_level.
    cbn [walk_raises has_nul resolve files_directly_in file_entries flat_map
         map fst snd app].
    change (walk_raises _ _ _) with false. change (has_nul _) with false.
    cbv iota.
    rewrite !merge_cons. cbn [snd]. rewrite find_emails_x_y.
    unfold merge; simpl. set_solver.
Qed.

(** ** The sink and the end of a run *)

Lemma for_each_emit {A} (f : A -> event) (l : list A) :
  for_each l () (fun x _ => emit (f x)) = (map f l, ()).
Proof.
  induction l as [|x l IH]; [done|].
  cbn [for_each]. rewrite bind_eq. cbn [emit result trace fst snd].
  by rewrite IH.
Qed.

Lemma save_trace w emails p :
  trace (save_emails_to_file w emails p)
  = if writable w p
    then OpenWrite p
         :: map (fun e => Write p (e ++ [Re.NEWLINE])) (elements emails)
         ++ [Log INFO (MsgSaved p)]
    else [Log ERROR MsgSaveError].
Proof.
  unfold save_emails_to_file. destruct (writable w p); [|done].
  by rewrite !bind_eq, for_each_emit.
Qed.

Lemma finish_trace w a emails :
  trace (finish w a emails)
  = match emails with
    | None => [Log ERROR MsgNoEmails]
    | Some emails =>
        match output a with
        | Some (c :: p) => trace (save_emails_to_file w emails (c :: p))
        | _ => map Print (elements emails)
        end ++ [Log INFO MsgComplete]
    end.
Proof.
  unfold finish. destruct emails as [emails|]; [|done].
  rewrite bind_eq. cbn [trace fst emit].
  destruct (output a) as [[|c p]|]; by rewrite ?for_each_emit.
Qed.

Lemma finish_quiet w a emails :
  http_gets (trace (finish w a emails)) = []
  /\ opened (trace (finish w a emails)) = [].
Proof.
  assert (Hp : forall l : list text,
             http_gets (map Print l) = [] /\ opened (map Print l) = []).
  { induction l as [|x l [IH1 IH2]]; [done|]. by split. }
  assert (Hw : forall p (l : list text),
             http_gets (map (fun e => Write p (e ++ [Re.NEWLINE])) l) = []
             /\ opened (map (fun e => Write p (e ++ [Re.NEWLINE])) l) = []).
  { induction l as [|x l [IH1 IH2]]; [done|]. by split. }
  rewrite finish_trace. destruct emails as [emails|]; [|done].
  rewrite http_gets_app, opened_app.
  destruct (output a) as [[|c p]|].
  - destruct (Hp (elements emails)) as [-> ->]. done.
  - rewrite save_trace. destruct (writable w (c :: p)); [|done].
    cbn [http_gets opened flat_map app]. fold (http_gets) (opened).
    rewrite !http_gets_app, !opened_app.
    destruct (Hw (c :: p) (elements emails)) as [-> ->]. done.
  - destruct (Hp (elements emails)) as [-> ->]. done.
Qed.

Lemma main_dispatch w a :
  main w a
  = match top_level_extraction w a with
    | Some m => emails <- m ;; finish w a emails
    | None => emit (Log ERROR MsgInvalidSource)
    end.
Proof.
  unfold main, top_level_extraction, classify.
  destruct (startswith (codes "http://") (source a)); [done|].
  destruct (startswith (codes "https://") (source a)); [done|].
  cbn [orb]. destruct (isfile w (source a)); [done|].
  by destruct (isdir w (source a)).
Qed.

(** C3: the Dispatcher takes the first class that applies, in the order
    URL, File, Directory; a run performs the extraction of that class and no
    other (a URL run reads no file, a File run opens its source alone and
    fetches nothing, a Directory run fetches nothing and reads the files of
    its walk); a source of no class gets the error report and nothing
    else. *)
Theorem dispatcher_first_match_wins w a :
  let t := trace (main w a) in
  main w a
  = match top_level_extraction w a with
    | Some m => emails <- m ;; finish w a emails
    | None => emit (Log ERROR MsgInvalidSource)
    end
  /\ match classify w (source a) with
     | KUrl => http_gets t = [source a] /\ opened t = []
     | KFile => http_gets t = [] /\ opened t = [source a]
     | KDirectory =>
         http_gets t = []
         /\ opened t = (visited (source a) (stat w (source a)) (recursive a)).*1
     | KInvalid => t = [Log ERROR MsgInvalidSource]
     end
  /\ (classify w (source a) = KUrl
      <-> startswith (codes "http://") (source a) = true
          \/ startswith (codes "https://") (source a) = true)
  /\ (classify w (source a) = KInvalid
      <-> startswith (codes "http://") (source a) = false
          /\ startswith (codes "https://") (source a) = false
          /\ isfile w (source a) = false /\ isdir w (source a) = false).
Proof.
  split; [apply main_dispatch|]. split; [|split].
  - cbv zeta. rewrite main_dispatch. unfold top_level_extraction.
    destruct (classify w (source a)); [| | |done];
      rewrite bind_eq; cbn [trace fst]; rewrite http_gets_app, opened_app.
    + destruct (finish_quiet w a (result (extract_emails_from_url (source a)
                 (http_get w (source a))))) as [-> ->].
      by destruct (http_get w (source a)).
    + destruct (finish_quiet w a (result (extract_emails_from_file (source a)
                 (open_read w (source a))))) as [-> ->].
      fold (trace (extract_emails_from_file (source a) (open_read w (source a)))).
      by rewrite file_opened, file_http_gets.
    + destruct (finish_quiet w a (result (extract_emails_from_directory (source a)
                 (stat w (source a)) (recursive a)))) as [-> ->].
      fold (trace (extract_emails_from_directory (source a) (stat w (source a))
                     (recursive a))).
      by rewrite directory_opened, directory_http_gets, !app_nil_r.
  - unfold classify.
    destruct (startswith (codes "http://") (source a)); [naive_solver|].
    destruct (startswith (codes "https://") (source a)); [naive_solver|].
    destruct (isfile w (source a)); [naive_solver|].
    destruct (isdir w (source a)); naive_solver.
  - unfold classify.
    destruct (startswith (codes "http://") (source a)); [naive_solver|].
    destruct (startswith (codes "https://") (source a)); [naive_solver|].
    destruct (isfile w (source a)); [naive_solver|].
    destruct (isdir w (source a)); naive_solver.
Qed.

Lemma file_events_no_output fs :
  Forall (fun e => is_output e = false) (flat_map file_events fs).
Proof.
  induction fs as [|[p r] fs IH]; [done|].
  cbn [flat_map]. apply Forall_app. split; [|done].
  by destruct r; repeat constructor.
Qed.

(** C6: when the top-level extraction fails (the source is of no class, or
    the URL, File or Directory extraction gives the Failure Marker, the
    last after the files read so far and the report of the directory error)
    the run ends on the error report: the sink is not called, nothing is
    written and nothing is printed. *)
Theorem failed_run_produces_no_output w a :
  top_level_failure w a ->
  Forall (fun e => is_output e = false) (trace (main w a))
  /\ (last (trace (main w a)) = Some (Log ERROR MsgNoEmails)
      \/ trace (main w a) = [Log ERROR MsgInvalidSource]).
Proof.
  unfold top_level_failure. rewrite main_dispatch. unfold top_level_extraction.
  destruct (classify w (source a)); intros H.
  - rewrite bind_eq, H. cbn [trace fst finish emit].
    destruct (http_get w (source a)); [discriminate H| |];
      (split; [by repeat constructor | by left]).
  - rewrite bind_eq, H. cbn [trace fst finish emit].
    destruct (open_read w (source a)); [discriminate H| |];
      (split; [by repeat constructor | by left]).
  - rewrite bind_eq, H. cbn [trace fst finish emit].
    rewrite directory_result in H. rewrite directory_eq.
    destruct (walk_raises (source a) (stat w (source a)) (recursive a));
      [|discriminate H].
    cbn [trace fst]. split.
    + rewrite !Forall_app. split; [split|]; [apply file_events_no_output|..];
        by repeat constructor.
    + left. by rewrite last_snoc.
  - split; [by repeat constructor | by right].
Qed.

(** A walk that raises below the top directory, after the files of the top
    were read. *)
Lemma failed_run_produces_no_output_witness :
  let tree := Dir true [(codes "top.txt", File (ReadOk (codes "x@y.com")));
                        (codes "deep", RaisingDir [])] in
  let w := {| http_get := fun _ => RequestError;
              stat := fun _ => Some tree;
              writable := fun _ => true |} in
  let a := {| source := codes "d";
              recursive := true;
              output := Some (codes "out.txt") |} in
  Forall (fun e => is_output e = false) (trace (main w a))
  /\ (last (trace (main w a)) = Some (Log ERROR MsgNoEmails)
      \/ trace (main w a) = [Log ERROR MsgInvalidSource]).
Proof.
  intros tree w a. apply (failed_run_produces_no_output w a). reflexivity.
Defined.

(** Scenario 3: the fetch of the URL times out. *)
Example main_on_a_fetch_that_times_out :
  trace (main {| http_get := fun _ => RequestError;
                 stat := fun _ => None;
                 writable := fun _ => true |}
              {| source := codes "http://example.com/";
                 recursive := false;
                 output := Some (codes "out.txt") |})
  = [HttpGet (codes "http://example.com/");
     Log ERROR (MsgFetchError (codes "http://example.com/"));
     Log ERROR MsgNoEmails].
Proof. reflexivity. Qed.

(** The same run, event by event. *)
Example main_on_a_walk_that_raises :
  trace (main {| http_get := fun _ => RequestError;
                 stat := fun _ =>
                   Some (Dir true [(codes "top.txt", File (ReadOk (codes "x@y.com")));
                                   (codes "deep", RaisingDir [])]);
                 writable := fun _ => true |}
              {| source := codes "d";
                 recursive := true;
                 output := Some (codes "out.txt") |})
  = [OpenRead (codes "d/top.txt");
     Log ERROR (MsgDirError (codes "d"));
     Log ERROR MsgNoEmails].
Proof. reflexivity. Qed.

(** ** Round trip through the destination file *)

Lemma read_lines_line e rest :
  Forall (fun c => c <> Re.NEWLINE) e ->
  read_lines (e ++ Re.NEWLINE :: rest) = e :: read_lines rest.
Proof.
  induction 1 as [|c e Hc _ IH]; [done|].
  cbn [app read_lines]. rewrite IH.
  by destruct (N.eqb_spec c Re.NEWLINE).
Qed.

Lemma read_lines_written (l : list text) :
  Forall (Forall (fun c => c <> Re.NEWLINE)) l ->
  read_lines (flat_map (fun e => e ++ [Re.NEWLINE]) l) = l.
Proof.
  induction 1 as [|e l He _ IH]; [done|].
  cbn [flat_map]. rewrite <- app_assoc. cbn [app].
  by rewrite read_lines_line, IH.
Qed.

Lemma written_by_sink w emails p :
  writable w p = true ->
  written_content (trace (save_emails_to_file w emails p)) p
  = flat_map (fun e => e ++ [Re.NEWLINE]) (elements emails).
Proof.
  intros Hw. rewrite save_trace, Hw. unfold written_content.
  cbn [flat_map app]. rewrite flat_map_app. cbn [flat_map]. rewrite app_nil_r.
  induction (elements emails) as [|e l IH]; [done|].
  cbn [map flat_map]. rewrite IH. by rewrite decide_True.
Qed.

Lemma email_shaped_no_newline e :
  email_shaped e -> Forall (fun c => c <> Re.NEWLINE) e.
Proof.
  intros H. eapply Forall_impl; [by apply email_shaped_no_space|].
  intros c Hc ->. discriminate Hc.
Qed.

(** C9: for every set of addresses, what the sink writes to the destination
    file, read back line by line, is the same set: the lines are the
    addresses, one each, and nothing else. *)
Theorem sink_round_trip (w : World) (emails : gset text) (p : text) :
  writable w p = true ->
  (forall e, e ∈ emails -> email_shaped e) ->
  let content := written_content (trace (save_emails_to_file w emails p)) p in
  read_lines content ≡ₚ elements emails
  /\ list_to_set (read_lines content) = emails.
Proof.
  intros Hw He content. subst content.
  rewrite written_by_sink by done.
  rewrite read_lines_written.
  - split; [done | apply list_to_set_elements_L].
  - apply Forall_forall. intros e Hin. apply email_shaped_no_newline, He.
    by apply elem_of_elements.
Qed.

Lemma sink_round_trip_witness :
  let w := {| http_get := fun _ => OtherError;
              stat := fun _ => None;
              writable := fun _ => true |} in
  let emails : gset text := {[ codes "x@y.com" ]} in
  let content :=
    written_content (trace (save_emails_to_file w emails (codes "out.txt")))
      (codes "out.txt") in
  read_lines content ≡ₚ elements emails
  /\ list_to_set (read_lines content) = emails.
Proof.
  intros w emails.
  apply (sink_round_trip w emails (codes "out.txt")); [reflexivity|].
  intros e He. apply elem_of_singleton in He as ->.
  apply (email_shaped_intro (codes "x") (codes "y") (codes "com"));
    vm_compute; (reflexivity || lia).
Defined.

(** The members of a directory result come from the readable files of the
    walk. *)
Lemma directory_member_source top tree rec S e :
  result (extract_emails_from_directory top tree rec) = Some S ->
  e ∈ S ->
  exists p t, (p, ReadOk t) ∈ visited top tree rec /\ e ∈ find_emails t.
Proof.
  rewrite directory_result. destruct (walk_raises top tree rec); [done|].
  intros [= <-]. apply elem_of_merge.
Qed.

(** * Further properties of the code *)

(** ** Delimiters *)

Lemma greedy_delimiter set k x t :
  set x = false ->
  (forall s, k (s ++ x :: t) = k s) ->
  forall s need, Re.greedy set k need (s ++ x :: t) = Re.greedy set k need s.
Proof.
  intros Hx Hk. induction s as [|c s IH]; intros need.
  - cbn [app Re.greedy]. rewrite Hx. destruct need; [apply (Hk [])|done].
  - cbn [app Re.greedy]. rewrite IH.
    change (c :: s ++ x :: t) with ((c :: s) ++ x :: t). by rewrite Hk.
Qed.

Lemma match_here_delimiter p x t :
  Forall (fun it => Re.item_set it x = false) p ->
  forall s, Re.match_here p (s ++ x :: t) = Re.match_here p s.
Proof.
  induction 1 as [|[set [|n]] p Hx _ IH]; intros s; [done| |].
  - destruct s as [|c s]; cbn [app Re.match_here].
    + simpl in Hx. by rewrite Hx.
    + by rewrite IH.
  - cbn [Re.match_here]. by apply greedy_delimiter.
Qed.

Lemma scan_delimiter p x t :
  Forall (fun it => Re.item_set it x = false) p ->
  Re.match_here p [] = None ->
  forall s skip, (skip <= length s)%nat ->
    Re.scan p skip (s ++ x :: t) = Re.scan p skip s ++ Re.scan p 0 t.
Proof.
  intros Hx Hnil. induction s as [|c s IH]; intros skip Hskip.
  - simpl in Hskip. assert (skip = 0%nat) as -> by lia.
    pose proof (match_here_delimiter p x t Hx []) as E. cbn [app] in E.
    cbn [app Re.scan]. rewrite E, Hnil. done.
  - destruct skip as [|n]; cbn [app Re.scan].
    + change (c :: s ++ x :: t) with ((c :: s) ++ x :: t).
      rewrite (match_here_delimiter p x t Hx).
      destruct (Re.match_here p (c :: s)) as [m|] eqn:Hm.
      * destruct (match_here_sound _ _ _ Hm) as [_ Hp].
        apply prefix_length in Hp. simpl in Hp.
        rewrite IH by lia. done.
      * apply IH. lia.
    + apply IH. simpl in Hskip. lia.
Qed.

Lemma delimiter_rejected x :
  is_delimiter x = true ->
  Forall (fun it => Re.item_set it x = false) Re.EMAIL.
Proof.
  unfold is_delimiter. intros [Hl Ha]%andb_true_iff.
  apply negb_true_iff in Hl, Ha.
  assert (Hd : Re.domain_char x = false).
  { revert Hl. unfold Re.local_char, Re.domain_char.
    rewrite !orb_false_iff. tauto. }
  assert (Hle : Re.is_letter x = false).
  { revert Hl. unfold Re.local_char. rewrite !orb_false_iff. tauto. }
  assert (Hdot : Re.lit Re.DOT x = false).
  { revert Hl. unfold Re.local_char, Re.lit, Re.DOT. rewrite !orb_false_iff. tauto. }
  repeat constructor; done.
Qed.

Lemma findall_delimiter x s t :
  is_delimiter x = true ->
  Re.findall Re.EMAIL (s ++ x :: t)
  = Re.findall Re.EMAIL s ++ Re.findall Re.EMAIL t.
Proof.
  intros Hx. unfold Re.findall.
  apply scan_delimiter; [by apply delimiter_rejected | done | lia].
Qed.

(** A delimiter (a character that is neither a local-part character nor
    ['@']: a space, a line break, a comma, ...) cuts the text into parts
    that are searched independently: the matches of the whole text are the
    matches of the part before it followed by those of the part after
    it. *)
Theorem extraction_splits_at_delimiter x s t :
  is_delimiter x = true ->
  Re.findall Re.EMAIL (s ++ x :: t)
  = Re.findall Re.EMAIL s ++ Re.findall Re.EMAIL t
  /\ find_emails (s ++ x :: t) = find_emails s ∪ find_emails t.
Proof.
  intros Hx. split; [by apply findall_delimiter|].
  unfold find_emails. rewrite findall_delimiter by done.
  apply list_to_set_app_L.
Qed.

Lemma extraction_splits_at_delimiter_witness :
  let s := codes "to a@b.org" in
  let t := codes "cc c@d.net" in
  Re.findall Re.EMAIL (s ++ Re.NEWLINE :: t)
  = Re.findall Re.EMAIL s ++ Re.findall Re.EMAIL t
  /\ find_emails (s ++ Re.NEWLINE :: t) = find_emails s ∪ find_emails t.
Proof.
  intros s t. apply (extraction_splits_at_delimiter Re.NEWLINE s t). reflexivity.
Defined.

(** ** Delimited addresses *)

Lemma greedy_take set k r s m :
  Forall (fun c => set c = true) r ->
  Re.greedy set k 0 s = Some m ->
  forall need, (need <= length r)%nat ->
    Re.greedy set k need (r ++ s) = Some (r ++ m).
Proof.
  intros Hr Hs. induction Hr as [|c r Hc _ IH]; intros need Hn.
  - simpl in Hn. assert (need = 0%nat) as -> by lia. exact Hs.
  - cbn [app Re.greedy]. rewrite Hc, IH; [done|]. simpl in Hn. lia.
Qed.

Lemma greedy_none set k r rest :
  Forall (fun c => set c = true) r ->
  (forall a b, r = a ++ b -> k (b ++ rest) = None) ->
  match rest with [] => True | y :: _ => set y = false end ->
  forall need, Re.greedy set k need (r ++ rest) = None.
Proof.
  intros Hr. induction Hr as [|c r Hc _ IH]; intros Hk Hrest need.
  - pose proof (Hk [] [] eq_refl) as E. cbn [app] in *.
    destruct rest as [|y rest]; cbn [Re.greedy].
    + by destruct need.
    + rewrite Hrest. by destruct need.
  - cbn [app Re.greedy]. rewrite Hc, IH; [|intros a b ->; apply (Hk (c :: a) b eq_refl)|done].
    destruct need; [apply (Hk [] (c :: r) eq_refl)|done].
Qed.

Lemma off_domain_not_letter y : Re.domain_char y = false -> Re.is_letter y = false.
Proof.
  intros H. destruct (Re.is_letter y) eqn:E; [|done].
  apply letter_is_domain in E. congruence.
Qed.

Lemma off_domain_not_dot y : Re.domain_char y = false -> Re.lit Re.DOT y = false.
Proof.
  unfold Re.domain_char, Re.lit, Re.DOT. rewrite !orb_false_iff. tauto.
Qed.

Lemma letter_not_dot c : Re.is_letter c = true -> Re.lit Re.DOT c = false.
Proof.
  intros H. apply not_true_is_false. revert H.
  unfold Re.is_letter, Re.in_range, Re.lit, Re.DOT.
  rewrite !orb_true_iff, !andb_true_iff, !N.leb_le, !N.eqb_eq. lia.
Qed.

Lemma match_letters tl post :
  (2 <= length tl)%nat -> Forall (fun c => Re.is_letter c = true) tl ->
  starts_off_domain post = true ->
  Re.greedy Re.is_letter (Re.match_here []) 2 (tl ++ post) = Some tl.
Proof.
  intros Ht Ft Hpost.
  rewrite (greedy_take Re.is_letter (Re.match_here []) tl post []);
    [by rewrite app_nil_r|done| |done].
  destruct post as [|y post]; [done|]. cbn [Re.greedy].
  simpl in Hpost. apply negb_true_iff in Hpost.
  by rewrite (off_domain_not_letter _ Hpost).
Qed.

Lemma match_domain d tl post :
  (1 <= length d)%nat -> Forall (fun c => Re.domain_char c = true) d ->
  (2 <= length tl)%nat -> Forall (fun c => Re.is_letter c = true) tl ->
  starts_off_domain post = true ->
  Re.greedy Re.domain_char
    (Re.match_here [Re.Item (Re.lit Re.DOT) Re.Once;
                    Re.Item Re.is_letter (Re.AtLeast 2)])
    1 (d ++ Re.DOT :: tl ++ post)
  = Some (d ++ Re.DOT :: tl).
Proof.
  intros Hd Fd Ht Ft Hpost.
  apply greedy_take; [done| |done].
  cbn [Re.greedy]. change (Re.domain_char Re.DOT) with true. cbv iota.
  rewrite greedy_none.
  - cbn [Re.match_here]. change (Re.lit Re.DOT Re.DOT) with true. cbv iota.
    by rewrite match_letters.
  - eapply Forall_impl; [exact Ft | apply letter_is_domain].
  - intros a b E. destruct b as [|c b]; cbn [app Re.match_here].
    + destruct post as [|y post]; [done|].
      simpl in Hpost. apply negb_true_iff in Hpost.
      by rewrite (off_domain_not_dot _ Hpost).
    + rewrite letter_not_dot; [done|].
      rewrite E in Ft. apply Forall_app in Ft as [_ Ft].
      by apply Forall_cons in Ft as [Hc _].
  - destruct post as [|y post]; [done|].
    simpl in Hpost. by apply negb_true_iff in Hpost.
Qed.

Lemma match_address A post :
  email_shaped A -> starts_off_domain post = true ->
  Re.match_here Re.EMAIL (A ++ post) = Some A.
Proof.
  intros (l & d & tl & -> & Hl & Fl & Hd & Fd & Ht & Ft) Hpost.
  unfold Re.EMAIL. cbn [Re.match_here].
  rewrite <- app_assoc.
  apply greedy_take; [done| |done].
  cbn [app Re.greedy]. change (Re.local_char Re.AT) with false. cbv iota.
  cbn [Re.match_here]. change (Re.lit Re.AT Re.AT) with true. cbv iota.
  rewrite <- app_assoc. cbn [app].
  by rewrite match_domain.
Qed.

Lemma scan_past p :
  Re.match_here p [] = None -> forall s, Re.scan p (length s) s = [].
Proof.
  intros Hnil. induction s as [|c s IH]; [|exact IH].
  cbn [length Re.scan]. by rewrite Hnil.
Qed.

Lemma findall_address A post :
  email_shaped A -> starts_off_domain post = true ->
  exists rest, Re.findall Re.EMAIL (A ++ post) = A :: rest.
Proof.
  intros HA Hpost. pose proof (match_address A post HA Hpost) as Hm.
  destruct HA as (l & d & tl & -> & Hl & _).
  destruct l as [|c l]; [simpl in Hl; lia|].
  unfold Re.findall. cbn [app Re.scan] in *. rewrite Hm. eauto.
Qed.

(** An address that is delimited in the text is always found, whole: when
    the text before it is empty or ends at a delimiter (a character that is
    neither a local-part character nor ['@']) and the text after it is empty
    or starts with a character outside the domain set, the address is in
    the result; an address that is the whole text is the only result. *)
Theorem delimited_address_is_extracted pre A post :
  email_shaped A ->
  ends_at_delimiter pre = true ->
  starts_off_domain post = true ->
  A ∈ find_emails (pre ++ A ++ post)
  /\ find_emails A = {[ A ]}.
Proof.
  intros HA Hpre Hpost. split.
  - unfold find_emails. apply elem_of_list_to_set.
    destruct (findall_address A post HA Hpost) as [rest Hrest].
    unfold ends_at_delimiter in Hpre.
    destruct (last pre) as [x|] eqn:Hlast.
    + apply last_Some in Hlast as [pre' ->].
      rewrite <- app_assoc. cbn [app].
      rewrite findall_delimiter, Hrest by done.
      apply elem_of_app. right. left.
    + apply last_None in Hlast as ->. cbn [app]. rewrite Hrest. left.
  - pose proof (match_address A [] HA eq_refl) as Hm. rewrite app_nil_r in Hm.
    unfold find_emails, Re.findall.
    destruct A as [|c A]; [by destruct HA as ([|? ?] & ? & ? & ? & ? & ?)|].
    cbn [Re.scan]. rewrite Hm. cbn [length Nat.pred].
    rewrite scan_past by done. set_solver.
Qed.

Lemma delimited_address_is_extracted_witness :
  let A := codes "a.b+c@example.co.uk" in
  A ∈ find_emails (codes "Contact: " ++ A ++ codes ", or call")
  /\ find_emails A = {[ A ]}.
Proof.
  intros A.
  apply (delimited_address_is_extracted (codes "Contact: ") A (codes ", or call"));
    [|reflexivity|reflexivity].
  apply (email_shaped_intro (codes "a.b+c") (codes "example.co") (codes "uk"));
    vm_compute; (reflexivity || lia).
Defined.

(** Every extracted string has at least six characters, begins with a
    local-part character and ends with two letters; a text of fewer than
    six characters gives nothing. *)
Theorem extracted_address_shape t e :
  e ∈ find_emails t ->
  (6 <= length e <= length t)%nat
  /\ (exists c cs, e = c :: cs /\ Re.local_char c = true)
  /\ (exists body x y, e = body ++ [x; y]
                        /\ Re.is_letter x = true /\ Re.is_letter y = true).
Proof.
  intros H. destruct (find_emails_sound _ _ H) as [(pre & post & ->) Hs].
  destruct Hs as (l & d & tl & -> & Hl & Fl & Hd & Fd & Ht & Ft).
  split; [|split].
  - rewrite !length_app. cbn [length]. rewrite !length_app. cbn [length]. lia.
  - destruct l as [|c l]; [simpl in Hl; lia|].
    apply Forall_cons in Fl as [Hc _]. by exists c, (l ++ Re.AT :: d ++ Re.DOT :: tl).
  - destruct (rev tl) as [|y [|x r]] eqn:Hrev;
      apply (f_equal (@rev N)) in Hrev; rewrite rev_involutive in Hrev; subst tl;
      [simpl in Ht; lia | simpl in Ht; lia |].
    cbn [rev] in Ft. rewrite <- !app_assoc in Ft. cbn [app] in Ft.
    apply Forall_app in Ft as [_ Ft].
    apply Forall_cons in Ft as [Hx Ft]. apply Forall_cons in Ft as [Hy _].
    exists (l ++ Re.AT :: d ++ Re.DOT :: rev r), x, y.
    split; [|done]. cbn [rev]. rewrite <- !app_assoc. cbn [app].
    by rewrite <- !app_assoc.
Qed.

Lemma extracted_address_shape_witness :
  let e := codes "x@y.com" in
  let t := codes "mail x@y.com now" in
  (6 <= length e <= length t)%nat
  /\ (exists c cs, e = c :: cs /\ Re.local_char c = true)
  /\ (exists body x y, e = body ++ [x; y]
                        /\ Re.is_letter x = true /\ Re.is_letter y = true).
Proof.
  intros e t. apply (extracted_address_shape t e).
  unfold find_emails, e, t.
  replace (Re.findall Re.EMAIL (codes "mail x@y.com now"))
    with [codes "x@y.com"] by (vm_compute; reflexivity).
  by apply elem_of_list_to_set, list_elem_of_singleton.
Defined.

(** ** The directory walk: recursion, listing order, error reports *)

Lemma taken_prefix steps : taken false steps `prefix_of` taken true steps.
Proof.
  destruct steps as [|[tr|] steps]; cbn [taken]; [done| |done].
  by apply prefix_cons, prefix_nil.
Qed.

Lemma visited_prefix top tree :
  visited top tree false `prefix_of` visited top tree true.
Proof.
  unfold visited. destruct (taken_prefix (os_walk top tree)) as [k ->].
  rewrite flat_map_app. by eexists.
Qed.

Lemma walk_fails_once steps :
  walk_fails true steps = false -> walk_fails false steps = false.
Proof. by destruct steps as [|[tr|] steps]. Qed.

(** The recursive extraction only adds to the non-recursive one: it reads
    the same files first, then the ones below, and when it returns a set
    the non-recursive extraction returns a set too, contained in it. *)
Theorem recursion_only_adds top tree :
  opened (trace (extract_emails_from_directory top tree false))
  `prefix_of` opened (trace (extract_emails_from_directory top tree true))
  /\ (forall S2 : gset text,
        result (extract_emails_from_directory top tree true) = Some S2 ->
        exists S1 : gset text,
          result (extract_emails_from_directory top tree false) = Some S1
          /\ S1 ⊆ S2).
Proof.
  rewrite !directory_result, !directory_opened.
  destruct (visited_prefix top tree) as [k Hk]. split.
  - rewrite Hk, fmap_app. by eexists.
  - intros S2. unfold walk_raises.
    destruct (walk_fails true (os_walk top tree)) eqn:E; [done|].
    rewrite (walk_fails_once _ E). intros [= <-].
    eexists. split; [done|]. rewrite Hk, merge_app. set_solver.
Qed.

Lemma merge_perm l l' : l ≡ₚ l' -> merge l = merge l'.
Proof.
  intros Hp. apply set_eq. intros e. rewrite !elem_of_merge.
  split; intros (p & t & Hin & He); exists p, t; split; try done.
  - by rewrite <- Hp.
  - by rewrite Hp.
Qed.

Lemma walk_fails_eq s s' :
  (Raise ∈ s <-> Raise ∈ s') -> walk_fails true s = walk_fails true s'.
Proof.
  intros H. destruct (walk_fails true s) eqn:E, (walk_fails true s') eqn:E';
    try done.
  - apply walk_fails_raise, H, walk_fails_raise in E. congruence.
  - apply walk_fails_raise, H, walk_fails_raise in E'. congruence.
Qed.

Lemma dir_walk_perm top es es' :
  es ≡ₚ es' ->
  (Raise ∈ walk_tree top (Dir true es) <-> Raise ∈ walk_tree top (Dir true es'))
  /\ flat_map triple_files (yields (walk_tree top (Dir true es)))
     ≡ₚ flat_map triple_files (yields (walk_tree top (Dir true es')))
  /\ flat_map triple_files (taken false (walk_tree top (Dir true es)))
     ≡ₚ flat_map triple_files (taken false (walk_tree top (Dir true es'))).
Proof.
  intros Hp. rewrite !walk_tree_dir.
  assert (Hw : flat_map (fun e => walk_tree (os_path_join top e.1) e.2) es
               ≡ₚ flat_map (fun e => walk_tree (os_path_join top e.1) e.2) es')
    by by apply Permutation_flat_map.
  assert (Hf : map (fun f : text * read_outcome => (os_path_join top f.1, f.2))
                 (file_entries es)
               ≡ₚ map (fun f : text * read_outcome => (os_path_join top f.1, f.2))
                    (file_entries es')).
  { apply Permutation_map. unfold file_entries. by apply Permutation_flat_map. }
  split; [|split].
  - rewrite !elem_of_cons.
    split; (intros [?|H]; [by left|right]); [by rewrite <- Hw|by rewrite Hw].
  - cbn [yields flat_map triple_files app].
    apply Permutation_app; [done|].
    apply Permutation_flat_map. unfold yields. by apply Permutation_flat_map.
  - cbn [taken flat_map triple_files]. by rewrite !app_nil_r.
Qed.

(** The result of a directory extraction does not depend on the order in
    which the directory lists its entries. *)
Theorem directory_result_ignores_listing_order top b es es' rec :
  es ≡ₚ es' ->
  result (extract_emails_from_directory top (Some (Dir b es)) rec)
  = result (extract_emails_from_directory top (Some (Dir b es')) rec).
Proof.
  intros Hp. rewrite !directory_result. unfold walk_raises, visited, os_walk.
  destruct (has_nul top); [done|]. cbn [resolve].
  destruct b; [|done].
  destruct (dir_walk_perm top es es' Hp) as (H1 & H2 & H3).
  destruct rec.
  - rewrite (walk_fails_eq _ _ H1).
    destruct (walk_fails true (walk_tree top (Dir true es'))) eqn:E'; [done|].
    pose proof E' as E. rewrite <- (walk_fails_eq _ _ H1) in E.
    rewrite (taken_all _ E), (taken_all _ E'). f_equal. by apply merge_perm.
  - rewrite !walk_tree_dir. cbn [walk_fails andb]. f_equal.
    rewrite !walk_tree_dir in H3. by apply merge_perm.
Qed.

Lemma directory_result_ignores_listing_order_witness :
  let f := (codes "f.txt", File (ReadOk (codes "x@y.com"))) in
  let g := (codes "sub", Dir true [(codes "g.txt", File (ReadOk (codes "u@v.org")))]) in
  result (extract_emails_from_directory (codes "d") (Some (Dir true [f; g])) true)
  = result (extract_emails_from_directory (codes "d") (Some (Dir true [g; f])) true).
Proof.
  intros f g.
  apply (directory_result_ignores_listing_order (codes "d") true [f; g] [g; f] true).
  apply perm_swap.
Defined.

Lemma errors_app t1 t2 : errors (t1 ++ t2) = errors t1 ++ errors t2.
Proof. apply flat_map_app. Qed.

Lemma errors_file_events fs :
  errors (flat_map file_events fs) = flat_map file_error fs.
Proof.
  induction fs as [|[p r] fs IH]; [done|].
  cbn [flat_map]. rewrite errors_app, IH. by destruct r.
Qed.

(** The ERROR reports of a directory extraction are those of the visited
    files whose reading failed, one for each, in the order of the walk and
    with the path of the file ("File not found" for a missing entry, "Error
    processing file" otherwise), followed by the report of the directory
    error when an exception left the walk; a readable file leaves none. *)
Theorem directory_errors_name_the_failing_files top tree rec :
  errors (trace (extract_emails_from_directory top tree rec))
  = flat_map file_error (visited top tree rec)
    ++ (if walk_raises top tree rec then [MsgDirError top] else [])
  /\ (length (flat_map file_error (visited top tree rec))
      + length (readable_texts (visited top tree rec))
      = length (visited top tree rec))%nat.
Proof.
  rewrite directory_eq. cbn [trace fst]. rewrite errors_app, errors_file_events.
  split; [by destruct (walk_raises top tree rec)|].
  induction (visited top tree rec) as [|[p r] fs IH]; [done|].
  cbn [flat_map]. rewrite length_app. unfold readable_texts, omap in *.
  destruct r; simpl in *; lia.
Qed.

(** ** Whole runs *)

Lemma printed_app t1 t2 : printed (t1 ++ t2) = printed t1 ++ printed t2.
Proof. apply flat_map_app. Qed.

Lemma write_opens_app t1 t2 :
  write_opens (t1 ++ t2) = write_opens t1 ++ write_opens t2.
Proof. apply flat_map_app. Qed.

Lemma written_content_app t1 t2 p :
  written_content (t1 ++ t2) p = written_content t1 p ++ written_content t2 p.
Proof. apply flat_map_app. Qed.

(** An extraction prints nothing and writes nothing. *)
Lemma extraction_writes_nothing w a m :
  top_level_extraction w a = Some m ->
  printed (trace m) = [] /\ write_opens (trace m) = []
  /\ forall p, written_content (trace m) p = [].
Proof.
  assert (Hf : forall fs, printed (flat_map file_events fs) = []
                          /\ write_opens (flat_map file_events fs) = []
                          /\ forall p, written_content (flat_map file_events fs) p = []).
  { induction fs as [|[q r] fs (IH1 & IH2 & IH3)]; [done|].
    cbn [flat_map]. rewrite printed_app, write_opens_app, IH1, IH2.
    split; [by destruct r|]. split; [by destruct r|].
    intros p. rewrite written_content_app, IH3. by destruct r. }
  unfold top_level_extraction. destruct (classify w (source a)); intros [= <-].
  - by destruct (http_get w (source a)).
  - by destruct (open_read w (source a)).
  - rewrite directory_eq. cbn [trace fst].
    destruct (Hf (visited (source a) (stat w (source a)) (recursive a)))
      as (H1 & H2 & H3).
    rewrite printed_app, write_opens_app, H1, H2.
    split; [by destruct (walk_raises _ _ _)|].
    split; [by destruct (walk_raises _ _ _)|].
    intros p. rewrite written_content_app, H3. by destruct (walk_raises _ _ _).
Qed.

(** The members of a top-level result match the pattern. *)
Lemma top_level_members w a m S :
  top_level_extraction w a = Some m -> result m = Some S ->
  forall e, e ∈ S -> email_shaped e.
Proof.
  unfold top_level_extraction. destruct (classify w (source a)); intros [= <-].
  - destruct (http_get w (source a)); intros [= <-] e He.
    by destruct (find_emails_sound _ _ He).
  - destruct (open_read w (source a)); intros [= <-] e He.
    by destruct (find_emails_sound _ _ He).
  - rewrite directory_result.
    destruct (walk_raises _ _ _); intros [= <-] e He.
    apply elem_of_merge in He as (p & t & _ & He).
    by destruct (find_emails_sound _ _ He).
Qed.

Lemma main_trace w a m :
  top_level_extraction w a = Some m ->
  trace (main w a) = trace m ++ trace (finish w a (result m)).
Proof. intros H. by rewrite main_dispatch, H, bind_eq. Qed.

(** The flag [-r] changes nothing for a source that is not a directory. *)
Theorem recursive_flag_only_matters_for_directories w src r r' o :
  classify w src <> KDirectory ->
  main w {| source := src; recursive := r; output := o |}
  = main w {| source := src; recursive := r'; output := o |}.
Proof.
  intros H. rewrite !main_dispatch. unfold top_level_extraction.
  cbn [source recursive]. by destruct (classify w src).
Qed.

Lemma recursive_flag_only_matters_for_directories_witness :
  let w := {| http_get := fun _ => Fetched (codes "q@r.st");
              stat := fun _ => None;
              writable := fun _ => true |} in
  main w {| source := codes "https://h/"; recursive := true; output := None |}
  = main w {| source := codes "https://h/"; recursive := false; output := None |}.
Proof.
  intros w.
  apply (recursive_flag_only_matters_for_directories w (codes "https://h/")
           true false None).
  discriminate.
Defined.

(** An empty output path is no output path: the run prints its result, as
    it does without [-o]. *)
Theorem empty_output_path_means_stdout w src r :
  main w {| source := src; recursive := r; output := Some [] |}
  = main w {| source := src; recursive := r; output := None |}.
Proof.
  rewrite !main_dispatch. unfold top_level_extraction. cbn [source recursive].
  by destruct (classify w src).
Qed.

(** When the destination cannot be opened the run reports the failure of the
    save and then, all the same, the completion of the extraction; nothing
    is written and the addresses are not printed either. *)
Theorem failed_save_still_reports_completion (w : World) (a : Args)
    (m : M (option (gset text))) (S : gset text) (c : N) (p : text) :
  top_level_extraction w a = Some m ->
  result m = Some S ->
  output a = Some (c :: p) ->
  writable w (c :: p) = false ->
  trace (main w a)
  = trace m ++ [Log ERROR MsgSaveError; Log INFO MsgComplete]
  /\ printed (trace (main w a)) = []
  /\ write_opens (trace (main w a)) = [].
Proof.
  intros Hm HS Ho Hw.
  destruct (extraction_writes_nothing w a m Hm) as (Hp & Hwo & _).
  rewrite (main_trace w a m Hm), HS, finish_trace, Ho, save_trace, Hw.
  rewrite printed_app, write_opens_app, Hp, Hwo. done.
Qed.

Lemma failed_save_still_reports_completion_witness :
  let w := {| http_get := fun _ => Fetched (codes "q@r.st");
              stat := fun _ => None;
              writable := fun _ => false |} in
  let a := {| source := codes "http://h/"; recursive := false;
              output := Some (codes "/ro/out.txt") |} in
  let m := extract_emails_from_url (codes "http://h/") (Fetched (codes "q@r.st")) in
  trace (main w a)
  = trace m ++ [Log ERROR MsgSaveError; Log INFO MsgComplete]
  /\ printed (trace (main w a)) = []
  /\ write_opens (trace (main w a)) = [].
Proof.
  intros w a m.
  apply (failed_save_still_reports_completion w a m (find_emails (codes "q@r.st"))
           47 (codes "ro/out.txt")); reflexivity.
Defined.



(** With an output path that can be written, a successful run opens that
    file once, prints nothing, and the file read back line by line gives
    exactly the set the extraction returned. *)
Theorem file_run_round_trip (w : World) (a : Args)
    (m : M (option (gset text))) (S : gset text) (c : N) (p : text) :
  top_level_extraction w a = Some m ->
  result m = Some S ->
  output a = Some (c :: p) ->
  writable w (c :: p) = true ->
  list_to_set (read_lines (written_content (trace (main w a)) (c :: p))) = S
  /\ read_lines (written_content (trace (main w a)) (c :: p)) ≡ₚ elements S
  /\ write_opens (trace (main w a)) = [c :: p]
  /\ printed (trace (main w a)) = [].
Proof.
  intros Hm HS Ho Hw.
  destruct (extraction_writes_nothing w a m Hm) as (Hp & Hwo & Hwc).
  pose proof (written_by_sink w S (c :: p) Hw) as Hsink.
  rewrite save_trace, Hw in Hsink.
  assert (Hq : forall l : list text,
             printed (map (fun e => Write (c :: p) (e ++ [Re.NEWLINE])) l) = []
             /\ write_opens (map (fun e => Write (c :: p) (e ++ [Re.NEWLINE])) l) = []).
  { induction l as [|x l [IH1 IH2]]; [done|]. by split. }
  rewrite (main_trace w a m Hm), HS, finish_trace, Ho, save_trace, Hw.
  rewrite !written_content_app, !printed_app, !write_opens_app, Hwc, Hp, Hwo, Hsink.
  cbn [app written_content printed write_opens flat_map].
  fold (printed) (write_opens).
  rewrite !printed_app, !write_opens_app.
  destruct (Hq (elements S)) as [-> ->]. rewrite app_nil_r.
  rewrite read_lines_written.
  - split; [apply list_to_set_elements_L|]. done.
  - apply Forall_forall. intros e He. apply email_shaped_no_newline.
    apply (top_level_members w a m S Hm HS). by apply elem_of_elements.
Qed.

Lemma file_run_round_trip_witness :
  let w := {| http_get := fun _ => Fetched (codes "q@r.st and u@v.wx");
              stat := fun _ => None;
              writable := fun _ => true |} in
  let a := {| source := codes "http://h/"; recursive := false;
              output := Some (codes "out.txt") |} in
  let S := find_emails (codes "q@r.st and u@v.wx") in
  list_to_set (read_lines (written_content (trace (main w a)) (codes "out.txt"))) = S
  /\ read_lines (written_content (trace (main w a)) (codes "out.txt")) ≡ₚ elements S
  /\ write_opens (trace (main w a)) = [codes "out.txt"]
  /\ printed (trace (main w a)) = [].
Proof.
  intros w a S.
  apply (file_run_round_trip w a
           (extract_emails_from_url (codes "http://h/")
              (Fetched (codes "q@r.st and u@v.wx"))) S 111 (codes "ut.txt"));
    reflexivity.
Defined.

